(** * Robin-Hood hash table with double hashing (table.c)

    A shallow embedding of [table.c]: the slot array is a list of entry
    records, the C integers are kept in [Z] with their wrap-around written
    out, loops are fixpoints on a fuel, and the two single-precision
    computations ([cur_size * scalar], the load factor) are evaluated with
    the IEEE-754 operations of [SpecFloat]. *)

From Stdlib Require Import ZArith List Bool Lia Zdivisibility SpecFloat.
Import ListNotations.
Open Scope Z_scope.

(** ** Machine integers *)

(** [unsigned int] counters and [unsigned long] hashes wrap around. *)
Definition wrap32 (x : Z) : Z := x mod 2 ^ 32.
Definition wrap64 (x : Z) : Z := x mod 2 ^ 64.

Arguments wrap32 : simpl never.
Arguments wrap64 : simpl never.

(** The C macro [MAX]. *)
Definition MAX (a b : Z) : Z := if a >? b then a else b.

(** ** Keys, payloads and the pluggable strategies *)

(** A key is the caller's buffer, read as the values of its [char]s; the
    end of the list is the terminating NUL. A payload pointer is an address,
    [NULL] being 0. *)
Definition bytes := list Z.
Definition NULL : Z := 0.

Definition hash_func := bytes -> Z -> Z.
Definition cmp_func := bytes -> bytes -> Z -> Z.

Fixpoint strncmp (s1 s2 : bytes) (n : nat) : Z :=
  match n with
  | O => 0
  | S n' =>
      let c1 := hd 0 s1 in
      let c2 := hd 0 s2 in
      if c1 =? c2
      then if c1 =? 0 then 0 else strncmp (tl s1) (tl s2) n'
      else c1 - c2
  end.

(** Wrapper to cast the keys for compare. *)
Definition table_cmp : cmp_func :=
  fun k1 k2 len => strncmp k1 k2 (Z.to_nat len).

Fixpoint table_hash_loop (key : bytes) (n : nat) (hash : Z) : Z :=
  match n with
  | O => hash
  | S n' =>
      table_hash_loop (tl key) n'
        (wrap64 (wrap64 (wrap64 (hash * 2 ^ 5) + hash) + hd 0 key))
  end.

(** Simple djb2 hash. *)
Definition table_hash : hash_func :=
  fun k len => table_hash_loop k (Z.to_nat len) 5381.

(** ** Data model *)

Record entry : Type := mkEntry {
  hash : Z;
  key : option bytes;
  data : Z;
  keylen : Z;
  probepos : Z;
  alive : bool
}.

Record table_t : Type := mkTable {
  table : list entry;
  size : Z;
  step_prime : Z;
  totalweight : Z;
  maxprobe : Z;
  elements : Z;
  hashf : hash_func;
  cmpf : cmp_func
}.

(** A slot as [calloc] leaves it. *)
Definition zero_entry : entry := mkEntry 0 None NULL 0 0 false.

Definition TABLE_SIZE_DEFAULT : Z := 547.

(** The stored key pointer is dereferenced by the comparisons. A live entry
    always carries the non-null pointer of the caller that inserted it; the
    model reads a null pointer as the empty string. *)
Definition deref (k : option bytes) : bytes :=
  match k with Some b => b | None => [] end.

Fixpoint upd (n : nat) (e : entry) (l : list entry) : list entry :=
  match l, n with
  | [], _ => []
  | _ :: l', O => e :: l'
  | x :: l', S n' => x :: upd n' e l'
  end.

Definition get_slot (ta : table_t) (i : Z) : entry :=
  nth (Z.to_nat i) (table ta) zero_entry.

Definition set_slot (ta : table_t) (i : Z) (e : entry) : table_t :=
  mkTable (upd (Z.to_nat i) e (table ta)) (size ta) (step_prime ta)
    (totalweight ta) (maxprobe ta) (elements ta) (hashf ta) (cmpf ta).

Definition set_totalweight (ta : table_t) (w : Z) : table_t :=
  mkTable (table ta) (size ta) (step_prime ta) w (maxprobe ta) (elements ta)
    (hashf ta) (cmpf ta).

Definition set_maxprobe (ta : table_t) (m : Z) : table_t :=
  mkTable (table ta) (size ta) (step_prime ta) (totalweight ta) m
    (elements ta) (hashf ta) (cmpf ta).

Definition set_elements (ta : table_t) (n : Z) : table_t :=
  mkTable (table ta) (size ta) (step_prime ta) (totalweight ta) (maxprobe ta)
    n (hashf ta) (cmpf ta).

Definition set_alive (e : entry) (a : bool) : entry :=
  mkEntry (hash e) (key e) (data e) (keylen e) (probepos e) a.

Definition set_data (e : entry) (d : Z) : entry :=
  mkEntry (hash e) (key e) d (keylen e) (probepos e) (alive e).

Definition set_probepos (e : entry) (p : Z) : entry :=
  mkEntry (hash e) (key e) (data e) (keylen e) p (alive e).

(** The double-hashing step of a hash, [step_prime - (hash % step_prime)]. *)
Definition step_of (ta : table_t) (h : Z) : Z :=
  step_prime ta - (h mod step_prime ta).

(** The slot visited at probe position [p]: the C expression
    [(hash + p * step) % size], evaluated in [unsigned long]. *)
Definition slot_index (ta : table_t) (h p step : Z) : Z :=
  wrap64 (h + p * step) mod size ta.

(** ** Sizing policy *)

Fixpoint is_prime_loop (fuel : nat) (n i : Z) : option Z :=
  if i * i <? n
  then match fuel with
       | O => None
       | S fuel' =>
           if (n mod i =? 0) || (n mod (i + 2) =? 0)
           then Some 0
           else is_prime_loop fuel' n (i + 6)
       end
  else Some 1.

(** Very simple primality test. The loop needs fewer than [n] rounds, so the
    fuel [n] never runs out (lemma [is_prime_fuel]). The counter [i] is a C
    [int], kept in [Z]: [i * i] fits an [int] for every [n] below 2^31. *)
Definition is_prime (n : Z) : Z :=
  if n <=? 1 then 0
  else if n <=? 3 then 1
  else if (n mod 2 =? 0) || (n mod 3 =? 0) then 0
  else match is_prime_loop (Z.to_nat n) n 5 with
       | Some b => b
       | None => 0
       end.

(** Single-precision values. *)
Definition float_of_Z (n : Z) : spec_float := binary_normalize 24 128 n 0 false.

(** Conversion of a float to [size_t]: truncation. *)
Definition Z_of_float (x : spec_float) : Z :=
  match x with
  | S754_finite s m e =>
      cond_Zopp s (if 0 <=? e then Zpos m * 2 ^ e else Zpos m / 2 ^ (- e))
  | _ => 0
  end.

(** Promotion of a float to double, which is exact. *)
Definition double_of_float (x : spec_float) : spec_float :=
  match x with
  | S754_finite s m e => binary_normalize 53 1024 (cond_Zopp s (Zpos m)) e s
  | _ => x
  end.

(** [float scalar = 2.5]. *)
Definition scalar : spec_float := binary_normalize 24 128 5 (-1) false.

(** The double constant [0.95]. *)
Definition TABLE_MAX_LOAD_FACTOR : spec_float :=
  SFdiv 53 1024 (binary_normalize 53 1024 95 0 false)
    (binary_normalize 53 1024 100 0 false).

Fixpoint walk_up (fuel : nat) (new_size : Z) : option Z :=
  match fuel with
  | O => None
  | S fuel' =>
      if is_prime new_size =? 0 then walk_up fuel' (wrap64 (new_size + 1))
      else Some new_size
  end.

(** Walk to higher numbers. No bound on the walk is known to the code; the
    model gives up ([None]) when the fuel runs out. *)
Definition next_prime_size (fuel : nat) (cur_size : Z) (sc : spec_float)
  : option Z :=
  walk_up fuel (Z_of_float (SFmul 24 128 (float_of_Z cur_size) sc)).

Fixpoint walk_down (fuel : nat) (new_step : Z) : option Z :=
  match fuel with
  | O => None
  | S fuel' =>
      if is_prime new_step =? 0 then walk_down fuel' (wrap64 (new_step - 1))
      else Some new_step
  end.

(** Walk downwards: from [cur_size - 1] the prime 2 is reached within
    [cur_size] rounds whenever [cur_size >= 3]. *)
Definition next_prime_step (cur_size : Z) : option Z :=
  walk_down (Z.to_nat cur_size) (wrap64 (cur_size - 1)).

(** The test [(float)elements / (float)size > TABLE_MAX_LOAD_FACTOR]. *)
Definition load_exceeds (ta : table_t) : bool :=
  SFltb TABLE_MAX_LOAD_FACTOR
    (double_of_float
       (SFdiv 24 128 (float_of_Z (elements ta)) (float_of_Z (size ta)))).

(** ** Heuristic search *)

Definition key_matches (ta : table_t) (k : bytes) (e : entry) (len : Z) : bool :=
  cmpf ta k (deref (key e)) len =? 0.

(** One round of the bidirectional walk. [Some pos] is a hit, [Some (-1)]
    the exhausted walk, [None] the exhausted fuel. The locals [start] and
    [walk] are C [int]s; they are kept in [Z], which is what the code
    computes as long as [start + walk] fits an [int]. *)
Fixpoint search_loop (fuel : nat) (ta : table_t) (k : bytes) (len : Z)
    (h step start walk : Z) (topdone botdone : bool) : option Z :=
  match fuel with
  | O => None
  | S fuel' =>
      let top :=
        if negb topdone && (start + walk <=? maxprobe ta)
        then
          let pos := slot_index ta h (start + walk) step in
          let e := get_slot ta pos in
          match key e with
          | None => inr true
          | Some _ =>
              if alive e && key_matches ta k e len then inl pos
              else inr topdone
          end
        else inr true in
      match top with
      | inl pos => Some pos
      | inr topdone' =>
          let bot :=
            if negb botdone && (1 <=? start - walk)
            then
              let pos := slot_index ta h (start - walk) step in
              let e := get_slot ta pos in
              if alive e && key_matches ta k e len then inl pos
              else inr botdone
            else inr true in
          match bot with
          | inl pos => Some pos
          | inr botdone' =>
              if topdone' && botdone' then Some (-1)
              else search_loop fuel' ta k len h step start (walk + 1)
                     topdone' botdone'
          end
      end
  end.

(** Rounds after which both directions are exhausted. *)
Definition search_fuel (ta : table_t) (start : Z) : nat :=
  S (Z.to_nat (Z.max start (maxprobe ta + 1 - start))).

Definition internal_search (ta : table_t) (k : bytes) (len : Z) : Z :=
  let h := hashf ta k len in
  let step := step_of ta h in
  if elements ta =? 0 then -1
  else
    let start := totalweight ta / elements ta in
    match search_loop (search_fuel ta start) ta k len h step start 0
            false false with
    | Some pos => pos
    | None => -1
    end.

(** ** Insertion and displacement *)

(** How the [for(;;)] loop of [table_insert] is left: by [break], with the
    local [r] as it then stands, or by an early [return 0]. *)
Variant loop_exit : Type :=
  | Break (r : entry)
  | Return0.

(** The [for(;;)] loop of [table_insert]; [r] and [step] are its locals.
    [None] is the exhausted fuel. *)
Fixpoint insert_loop (fuel : nat) (ta : table_t) (r : entry) (step : Z)
  : option (table_t * loop_exit) :=
  match fuel with
  | O => None
  | S fuel' =>
      let r := set_probepos r (wrap32 (probepos r + 1)) in
      let ta := set_totalweight ta (wrap32 (totalweight ta + 1)) in
      let idx := slot_index ta (hash r) (probepos r) step in
      let e := get_slot ta idx in
      if negb (alive e) then
        match key e with
        | Some _ =>
            let pos := internal_search ta (deref (key r)) (keylen r) in
            if negb (pos =? -1) then
              let ta := set_slot ta idx r in
              let ta := set_slot ta pos (set_alive (get_slot ta pos) false) in
              let ta :=
                set_totalweight ta
                  (wrap32 (totalweight ta - probepos (get_slot ta pos))) in
              Some (ta, Return0)
            else Some (set_slot ta idx r, Break r)
        | None => Some (set_slot ta idx r, Break r)
        end
      else if (probepos e <? probepos r)
              || ((probepos e =? probepos r) && (hash r <? hash e)) then
        let ta := set_maxprobe ta (MAX (probepos r) (maxprobe ta)) in
        let ta := set_slot ta idx r in
        insert_loop fuel' ta e (step_of ta (hash e))
      else if (probepos e =? probepos r) && (hash r =? hash e)
              && (strncmp (deref (key r)) (deref (key e))
                    (Z.to_nat (keylen r)) =? 0) then
        let ta := set_slot ta idx (set_data e (data r)) in
        let ta := set_totalweight ta (wrap32 (totalweight ta - probepos r)) in
        Some (ta, Return0)
      else insert_loop fuel' ta r step
  end.

Section Allocation.

(** Whether [malloc] of the table header, and [calloc] of an array of the
    given number of slots, succeed. *)
Variable malloc_ok : bool.
Variable calloc_ok : Z -> bool.

(** The replay loop of [grow_table] over the old array, with the insert
    it calls as a parameter. *)
Fixpoint replay (ins : table_t -> bytes -> Z -> Z -> option (table_t * Z))
    (old_table : list entry) (ta : table_t) : option table_t :=
  match old_table with
  | [] => Some ta
  | e :: rest =>
      if alive e then
        match key e with
        | None => None
        | Some k =>
            match ins ta k (keylen e) (data e) with
            | None => None
            | Some (ta', _) => replay ins rest ta'
            end
        end
      else replay ins rest ta
  end.

Definition grow_table_with
    (ins : table_t -> bytes -> Z -> Z -> option (table_t * Z))
    (fuel : nat) (ta : table_t) : option (table_t * Z) :=
  match next_prime_size fuel (size ta) scalar with
  | None => None
  | Some new_size =>
      if negb (calloc_ok new_size) then Some (ta, -1)
      else
        match next_prime_step new_size with
        | None => None
        | Some sp =>
            let ta' :=
              mkTable (repeat zero_entry (Z.to_nat new_size)) new_size sp
                0 0 0 (hashf ta) (cmpf ta) in
            match replay ins (firstn (Z.to_nat (size ta)) (table ta)) ta' with
            | None => None
            | Some ta'' => Some (ta'', 0)
            end
        end
  end.

(** [table_insert] adds a new element to the table if it doesn't already
    exist; returns 0 on success, non-zero error. *)
Fixpoint table_insert (fuel : nat) (ta : table_t) (k : bytes) (len : Z)
    (d : Z) : option (table_t * Z) :=
  match fuel with
  | O => None
  | S fuel' =>
      let r := mkEntry (hashf ta k len) (Some k) d len 0 true in
      let step := step_of ta (hash r) in
      if elements ta =? size ta then Some (ta, -1)
      else
        let grown :=
          if load_exceeds ta
          then grow_table_with (table_insert fuel') fuel' ta
          else Some (ta, 0) in
        match grown with
        | None => None
        | Some (ta, _) =>
            match insert_loop fuel' ta r step with
            | None => None
            | Some (ta, Return0) => Some (ta, 0)
            | Some (ta, Break r) =>
                let ta := set_elements ta (wrap32 (elements ta + 1)) in
                let ta := set_maxprobe ta (MAX (probepos r) (maxprobe ta)) in
                Some (ta, 0)
            end
        end
  end.

(** [grow_table]: grow the table by 2.5 times. *)
Definition grow_table (fuel : nat) (ta : table_t) : option (table_t * Z) :=
  grow_table_with (table_insert fuel) fuel ta.

(** [table_new] generates a new table at the default size; [None] is the
    [NULL] result. *)
Definition table_new (h : option hash_func) (c : option cmp_func)
  : option table_t :=
  if negb malloc_ok then None
  else if negb (calloc_ok TABLE_SIZE_DEFAULT) then None
  else
    match next_prime_step TABLE_SIZE_DEFAULT with
    | None => None
    | Some sp =>
        Some (mkTable (repeat zero_entry (Z.to_nat TABLE_SIZE_DEFAULT))
                TABLE_SIZE_DEFAULT sp 0 0 0
                (match h with Some f => f | None => table_hash end)
                (match c with Some f => f | None => table_cmp end))
    end.

End Allocation.

(** Fetch a record; the result is the return value and what is stored
    through [data_ptr]. *)
Definition table_get (ta : table_t) (k : bytes) (len : Z) : Z * Z :=
  let pos := internal_search ta k len in
  if pos >? 0 then (0, data (get_slot ta pos)) else (-1, NULL).

(** Remove an item. Simply set alive = 0. *)
Definition table_remove (ta : table_t) (k : bytes) (len : Z) : table_t * Z :=
  let pos := internal_search ta k len in
  if pos >? 0 then
    let ta := set_slot ta pos (set_alive (get_slot ta pos) false) in
    let ta := set_elements ta (wrap32 (elements ta - 1)) in
    let ta :=
      set_totalweight ta
        (wrap32 (totalweight ta - probepos (get_slot ta pos))) in
    (ta, 0)
  else (ta, -1).

(** ** Specification-level notions *)

(** Sum of a measure over the slots of the array. *)
Fixpoint sum_over (f : entry -> Z) (l : list entry) : Z :=
  match l with
  | [] => 0
  | e :: l' => f e + sum_over f l'
  end.

(** What a slot contributes to the aggregate weight. *)
Definition weight (e : entry) : Z := if alive e then probepos e else 0.

(** [sum(entry.probepos for entry in table if entry.alive)]. *)
Definition weight_sum (ta : table_t) : Z := sum_over weight (table ta).

(** Number of live entries. *)
Definition live_count (ta : table_t) : Z :=
  sum_over (fun e => if alive e then 1 else 0) (table ta).

(** The array has [size] slots. *)
Definition well_formed (ta : table_t) : Prop :=
  0 < size ta /\ length (table ta) = Z.to_nat (size ta).

(** The states a client can bring a table into: creation, then any sequence
    of inserts, removals and growths, whatever the allocator answers. *)
Inductive reachable : table_t -> Prop :=
  | reach_new : forall m c h f ta,
      table_new m c h f = Some ta -> reachable ta
  | reach_insert : forall c fuel ta k len d ta' ret,
      reachable ta ->
      table_insert c fuel ta k len d = Some (ta', ret) -> reachable ta'
  | reach_remove : forall ta k len ta' ret,
      reachable ta ->
      table_remove ta k len = (ta', ret) -> reachable ta'
  | reach_grow : forall c fuel ta ta' ret,
      reachable ta ->
      grow_table c fuel ta = Some (ta', ret) -> reachable ta'.

(** What [table_insert] does once the capacity checks are behind it: the
    probe loop, then the counting of a newly placed element. *)
Definition place (fuel : nat) (ta : table_t) (r : entry) (step : Z)
  : option (table_t * Z) :=
  match insert_loop fuel ta r step with
  | None => None
  | Some (ta, Return0) => Some (ta, 0)
  | Some (ta, Break r) =>
      let ta := set_elements ta (wrap32 (elements ta + 1)) in
      let ta := set_maxprobe ta (MAX (probepos r) (maxprobe ta)) in
      Some (ta, 0)
  end.

(** The candidate record [table_insert] starts from. *)
Definition candidate (ta : table_t) (k : bytes) (len d : Z) : entry :=
  mkEntry (hashf ta k len) (Some k) d len 0 true.

(** The slot the placement rule assigns to an entry of the table. *)
Definition home_slot (ta : table_t) (e : entry) : Z :=
  slot_index ta (hash e) (probepos e) (step_of ta (hash e)).

(** Every live entry sits in its home slot. *)
Fixpoint placed_from (ta : table_t) (i : Z) (l : list entry) : bool :=
  match l with
  | [] => true
  | e :: l' =>
      (negb (alive e) || (i =? home_slot ta e)) && placed_from ta (i + 1) l'
  end.

Definition well_placed (ta : table_t) : bool := placed_from ta 0 (table ta).

(** Live entries whose stored key is the given buffer. *)
Definition live_copies (ta : table_t) (k : bytes) : list entry :=
  filter (fun e => alive e &&
                   match key e with
                   | Some k' => if list_eq_dec Z.eq_dec k k' then true else false
                   | None => false
                   end) (table ta).

(** What the loops and operations maintain: the array has [size] slots, no
    probe position is negative, and the two counters agree, in 32-bit
    arithmetic, with what they count. *)
Definition counters_ok (ta : table_t) : Prop :=
  well_formed ta /\
  Forall (fun e => 0 <= probepos e) (table ta) /\
  totalweight ta = wrap32 (weight_sum ta) /\
  elements ta = wrap32 (live_count ta).

(** An insert, as Growth calls it, that maintains the counters. *)
Definition preserving
    (ins : table_t -> bytes -> Z -> Z -> option (table_t * Z)) : Prop :=
  forall ta k len d ta' ret,
    counters_ok ta -> ins ta k len d = Some (ta', ret) -> counters_ok ta'.

(** ** Scenarios *)

(** An allocator that always answers the same. *)
Definition always (b : bool) : Z -> bool := fun _ => b.

Variant op : Type :=
  | Insert (k : bytes) (d : Z)
  | Remove (k : bytes).

(** Run a client script, collecting the return values. Keys are passed with
    their length. *)
Fixpoint run_ops (c : Z -> bool) (fuel : nat) (ops : list op) (ta : table_t)
  : option (table_t * list Z) :=
  match ops with
  | [] => Some (ta, [])
  | Insert k d :: rest =>
      match table_insert c fuel ta k (Z.of_nat (length k)) d with
      | None => None
      | Some (ta', ret) =>
          match run_ops c fuel rest ta' with
          | None => None
          | Some (ta'', rets) => Some (ta'', ret :: rets)
          end
      end
  | Remove k :: rest =>
      let (ta', ret) := table_remove ta k (Z.of_nat (length k)) in
      match run_ops c fuel rest ta' with
      | None => None
      | Some (ta'', rets) => Some (ta'', ret :: rets)
      end
  end.

(** The keys "aa", "ab", "ac" and "fbar". *)
Definition key_aa : bytes := [97; 97].
Definition key_ab : bytes := [97; 98].
Definition key_ac : bytes := [97; 99].
Definition key_fbar : bytes := [102; 98; 97; 114].

(** The two-letter keys "aa", "ab", ..., "az", "ba", ... in order. *)
Definition nth_key (i : nat) : bytes :=
  [97 + Z.of_nat i / 26; 97 + Z.of_nat i mod 26].

(** Insert the first [n] two-letter keys, the [i]-th with payload [i + 1]. *)
Definition first_inserts (n : nat) : list op :=
  map (fun i => Insert (nth_key i) (Z.of_nat i + 1)) (seq 0 n).

(** The table [table_new] returns when both allocations succeed. *)
Definition fresh_table : table_t :=
  mkTable (repeat zero_entry 547) 547 541 0 0 0 table_hash table_cmp.

(** [after o P]: the operation returned, and its result satisfies [P]. *)
Definition after {A : Type} (o : option A) (P : A -> Prop) : Prop :=
  match o with
  | Some a => P a
  | None => False
  end.

(** The table after the insert of "fbar", and after the insert of "aa". *)
Definition slot0_table : table_t :=
  mkTable
    (upd 0 (mkEntry (table_hash key_fbar 4) (Some key_fbar) 7 4 1 true)
       (repeat zero_entry 547))
    547 541 1 1 1 table_hash table_cmp.

Definition aa_table : table_t :=
  mkTable
    (upd 65 (mkEntry (table_hash key_aa 2) (Some key_aa) 1 2 1 true)
       (repeat zero_entry 547))
    547 541 1 1 1 table_hash table_cmp.

(** The table a script leaves, the fresh table if the script gets stuck. *)
Definition table_after (ops : list op) : table_t :=
  match run_ops (always true) 40 ops fresh_table with
  | Some (ta, _) => ta
  | None => fresh_table
  end.

Definition table_519 : table_t := table_after (first_inserts 519).
Definition table_520 : table_t := table_after (first_inserts 520).

(** A table with a tombstone and three keys of one first probe slot. *)
Definition table_churned : table_t :=
  table_after
    [Insert key_aa 1; Insert key_ab 2; Remove key_aa; Insert key_ac 3].

(** A table that has grown once and then lost a key. *)
Definition table_grown : table_t :=
  table_after (first_inserts 521 ++ [Remove (nth_key 3)]).

(** ** The measure of the probe loop *)

(** Number of further probes, at most [n], that take the probe sequence of
    hash [h] and step [step] from position [p] to slot [z]. *)
Fixpoint dist (n : nat) (sz z h step p : Z) : nat :=
  match n with
  | O => O
  | S n' =>
      if wrap64 (h + (p + 1) * step) mod sz =? z then 1%nat
      else S (dist n' sz z h step (p + 1))
  end.

(** Two rounds over the array are enough for every sequence. *)
Definition reach (sz z h step p : Z) : Z :=
  Z.of_nat (dist (Z.to_nat (2 * sz)) sz z h step p).

(** What a live entry of the array can still walk once it is displaced. *)
Definition budget (sz sp z : Z) (e : entry) : Z :=
  if alive e then reach sz z (hash e) (sp - hash e mod sp) (probepos e) else 0.

(** What the record in hand can still walk: with the step of the loop, and
    once more from the array if that step is not the one of its hash. *)
Definition in_hand (sz sp z : Z) (r : entry) (step : Z) : Z :=
  reach sz z (hash r) step (probepos r)
  + (if step =? sp - hash r mod sp then 0 else 2 * sz + 1).

(** No probe position of a live entry is near the end of [unsigned int]. *)
Definition probes_bounded (ta : table_t) : bool :=
  forallb (fun e => negb (alive e)
                    || ((0 <=? probepos e)
                        && (probepos e + 4 * size ta + 2 <? 2 ^ 32)))
    (table ta).

(** The states of the probe loop on a table of capacity [sz] and step
    modulus [sp] whose slot [z] is not live: no probe position can wrap
    before its record has walked its budget. *)
Definition loop_state (sz sp z : Z) (ta : table_t) (r : entry) (step : Z)
  : Prop :=
  well_formed ta /\ size ta = sz /\ step_prime ta = sp /\
  0 < step < sz /\
  alive (get_slot ta z) = false /\
  0 <= probepos r /\ probepos r + in_hand sz sp z r step < 2 ^ 32 /\
  Forall (fun e => alive e = true ->
                   0 <= probepos e /\ probepos e + budget sz sp z e < 2 ^ 32)
    (table ta).

(** ** The other operations *)

(** Fetch key pointer; [None] is [NULL]. *)
Definition table_fetch_key (ta : table_t) (k : bytes) (len : Z)
  : option bytes :=
  let pos := internal_search ta k len in
  if pos >? 0 then key (get_slot ta pos) else None.

(** Fetch data pointer. *)
Definition table_fetch_val (ta : table_t) (k : bytes) (len : Z) : Z :=
  let pos := internal_search ta k len in
  if pos >? 0 then data (get_slot ta pos) else NULL.

Section Iteration.

(** What the callback reaches through its [void *arg]. *)
Variable A : Type.

(** A callback receives [arg], key, keylen and data; it returns the state it
  leaves behind [arg] and its [int]. *)
Definition iter_func : Type := A -> option bytes -> Z -> Z -> A * Z.

(** The loop of [table_iter] over the slots that remain. The assignment
  [ret = f(...) != 0] stores the comparison, so a stop is reported as 1. *)
Fixpoint iter_loop (f : iter_func) (l : list entry) (arg : A) : A * Z :=
match l with
| [] => (arg, 0)
| e :: l' =>
    if alive e then
      let (arg', v) := f arg (key e) (keylen e) (data e) in
      if negb (v =? 0) then (arg', 1) else iter_loop f l' arg'
    else iter_loop f l' arg
end.

(** Iterate over the table, invoking the provided function on every live
  entry in slot order. *)
Definition table_iter (ta : table_t) (f : iter_func) (arg : A) : A * Z :=
iter_loop f (firstn (Z.to_nat (size ta)) (table ta)) arg.

End Iteration.

(** ** Further specification-level notions *)

(** The characters [strncmp] looks at: at most [n], up to the first NUL. *)
Fixpoint c_prefix (n : nat) (s : bytes) : bytes :=
  match n, s with
  | S n', c :: s' => if c =? 0 then [] else c :: c_prefix n' s'
  | _, _ => []
  end.

(** The table [table_new] returns for the strategies [h] and [c]. *)
Definition blank_table (h : hash_func) (c : cmp_func) : table_t :=
  mkTable (repeat zero_entry 547) 547 541 0 0 0 h c.

(** The first probe slot of a key in a table of the default capacity. *)
Definition first_slot (h : hash_func) (k : bytes) (len : Z) : Z :=
  wrap64 (h k len + 1 * (541 - h k len mod 541)) mod 547.

(** The default table that holds one entry, at its first probe. *)
Definition single_table (h : hash_func) (c : cmp_func) (k : bytes)
    (len d : Z) : table_t :=
  mkTable
    (upd (Z.to_nat (first_slot h k len))
       (mkEntry (h k len) (Some k) d len 1 true) (repeat zero_entry 547))
    547 541 1 1 1 h c.

(** The same table once the entry is removed: a tombstone is left. *)
Definition tombstone_table (h : hash_func) (c : cmp_func) (k : bytes)
    (len d : Z) : table_t :=
  mkTable
    (upd (Z.to_nat (first_slot h k len))
       (mkEntry (h k len) (Some k) d len 1 false) (repeat zero_entry 547))
    547 541 0 1 0 h c.

(** What the sizing policy keeps of a table. *)
Definition sizing_ok (ta : table_t) : Prop :=
  is_prime (size ta) = 1 /\ is_prime (step_prime ta) = 1 /\
  (size ta < 2 ^ 64 -> 1 < step_prime ta < size ta).

(** A slot that was never written, or one that stores the hash [h] gives
    its key. *)
Definition hashed_by (h : hash_func) (e : entry) : Prop :=
  match key e with
  | Some k => hash e = h k (keylen e)
  | None => alive e = false
  end.

(** Every slot that was ever written stores the hash of its key. *)
Definition entries_hashed (ta : table_t) : Prop :=
  Forall (hashed_by (hashf ta)) (table ta).

(** An insert, as Growth calls it, that keeps the stored hashes right. *)
Definition keeps_hashes
    (ins : table_t -> bytes -> Z -> Z -> option (table_t * Z)) : Prop :=
  forall ta k len d ta' ret,
    entries_hashed ta -> ins ta k len d = Some (ta', ret) ->
    entries_hashed ta' /\ hashf ta' = hashf ta.

(** * Properties *)

(** ** Arrays *)

Lemma upd_length n e l : length (upd n e l) = length l.
Proof.
  revert n; induction l as [|x l IH]; intros [|n]; simpl; auto.
Qed.

Lemma nth_upd_eq n e l d : (n < length l)%nat -> nth n (upd n e l) d = e.
Proof.
  revert n; induction l as [|x l IH]; intros [|n]; simpl; intros H;
    try lia; auto.
  apply IH; lia.
Qed.

Lemma nth_upd_neq n m e l d : n <> m -> nth m (upd n e l) d = nth m l d.
Proof.
  revert n m; induction l as [|x l IH]; intros [|n] [|m]; simpl; intros H;
    try congruence; auto.
Qed.

Lemma sum_over_upd f n e l d :
  (n < length l)%nat ->
  sum_over f (upd n e l) = sum_over f l - f (nth n l d) + f e.
Proof.
  revert n; induction l as [|x l IH]; intros [|n]; simpl; intros H;
    try lia.
  rewrite IH by lia. lia.
Qed.

Lemma nth_alive_in_range l n :
  alive (nth n l zero_entry) = true -> (n < length l)%nat.
Proof.
  intros H. destruct (Nat.lt_ge_cases n (length l)) as [|Hge]; auto.
  rewrite nth_overflow in H by exact Hge. discriminate.
Qed.

Lemma slot_index_range ta h p step :
  0 < size ta -> 0 <= slot_index ta h p step < size ta.
Proof. intros H. unfold slot_index. apply Z.mod_pos_bound; exact H. Qed.

Lemma slot_in_array ta i :
  well_formed ta -> 0 <= i < size ta -> (Z.to_nat i < length (table ta))%nat.
Proof. intros [H1 H2] H. rewrite H2. lia. Qed.

(** ** Soundness of the search *)

Lemma search_loop_sound fuel : forall ta k len h step start walk td bd pos,
  search_loop fuel ta k len h step start walk td bd = Some pos ->
  pos = -1 \/
  (alive (get_slot ta pos) = true /\ key_matches ta k (get_slot ta pos) len = true).
Proof.
  induction fuel as [|fuel IH]; intros ta k len h step start walk td bd pos;
    simpl; [discriminate|].
  destruct (negb td && (start + walk <=? maxprobe ta)).
  - destruct (key (get_slot ta (slot_index ta h (start + walk) step))).
    + destruct (alive (get_slot ta (slot_index ta h (start + walk) step))
                && key_matches ta k
                     (get_slot ta (slot_index ta h (start + walk) step)) len)
        eqn:Htop.
      * intros [= <-]. right. apply andb_true_iff in Htop. exact Htop.
      * destruct (negb bd && (1 <=? start - walk)).
        -- destruct (alive (get_slot ta (slot_index ta h (start - walk) step))
                     && key_matches ta k
                          (get_slot ta (slot_index ta h (start - walk) step))
                          len) eqn:Hbot.
           ++ intros [= <-]. right. apply andb_true_iff in Hbot. exact Hbot.
           ++ destruct (td && bd); [intros [= <-]; now left | apply IH].
        -- destruct (td && true); [intros [= <-]; now left | apply IH].
    + destruct (negb bd && (1 <=? start - walk)).
      * destruct (alive (get_slot ta (slot_index ta h (start - walk) step))
                  && key_matches ta k
                       (get_slot ta (slot_index ta h (start - walk) step))
                       len) eqn:Hbot.
        -- intros [= <-]. right. apply andb_true_iff in Hbot. exact Hbot.
        -- destruct (true && bd); [intros [= <-]; now left | apply IH].
      * simpl. intros [= <-]; now left.
  - destruct (negb bd && (1 <=? start - walk)).
    + destruct (alive (get_slot ta (slot_index ta h (start - walk) step))
                && key_matches ta k
                     (get_slot ta (slot_index ta h (start - walk) step)) len)
        eqn:Hbot.
      * intros [= <-]. right. apply andb_true_iff in Hbot. exact Hbot.
      * destruct (true && bd); [intros [= <-]; now left | apply IH].
    + simpl. intros [= <-]; now left.
Qed.

Lemma internal_search_sound ta k len :
  internal_search ta k len <> -1 ->
  alive (get_slot ta (internal_search ta k len)) = true /\
  cmpf ta k (deref (key (get_slot ta (internal_search ta k len)))) len = 0.
Proof.
  unfold internal_search.
  destruct (elements ta =? 0); [congruence|].
  destruct (search_loop _ ta k len _ _ _ 0 false false) as [pos|] eqn:Hs;
    [|congruence].
  intros Hne. apply search_loop_sound in Hs. destruct Hs as [|[Ha Hm]];
    [congruence|].
  split; [exact Ha|]. unfold key_matches in Hm. now apply Z.eqb_eq in Hm.
Qed.

(** The fuel of the search never runs out. *)
Lemma search_loop_fuel fuel : forall ta k len h step start walk td bd,
  Z.max 0 (Z.max start (maxprobe ta + 1 - start) - walk) < Z.of_nat fuel ->
  search_loop fuel ta k len h step start walk td bd <> None.
Proof.
  induction fuel as [|fuel IH]; intros ta k len h step start walk td bd Hf;
    [simpl in Hf; lia|].
  simpl.
  assert (Hstep : forall td' bd',
             (Z.max start (maxprobe ta + 1 - start) <= walk ->
              td' = true /\ bd' = true) ->
             (if td' && bd' then Some (-1)
              else search_loop fuel ta k len h step start (walk + 1) td' bd')
             <> None).
  { intros td' bd' Hdone.
    destruct (Z_le_gt_dec (Z.max start (maxprobe ta + 1 - start)) walk) as [Hle|Hgt].
    - destruct (Hdone Hle) as [-> ->]. simpl. discriminate.
    - destruct (td' && bd'); [discriminate|]. apply IH; lia. }
  destruct (negb td && (start + walk <=? maxprobe ta)) eqn:Htop.
  - apply andb_true_iff in Htop. destruct Htop as [_ Hle%Z.leb_le].
    destruct (key (get_slot ta (slot_index ta h (start + walk) step))).
    + destruct (alive _ && key_matches ta k _ len); [discriminate|].
      destruct (negb bd && (1 <=? start - walk)) eqn:Hbot.
      * destruct (alive _ && key_matches ta k _ len); [discriminate|].
        apply Hstep. lia.
      * apply Hstep. lia.
    + destruct (negb bd && (1 <=? start - walk)) eqn:Hbot.
      * destruct (alive _ && key_matches ta k _ len); [discriminate|].
        apply Hstep. apply andb_true_iff in Hbot.
        destruct Hbot as [_ Hb%Z.leb_le]. lia.
      * apply Hstep. tauto.
  - destruct (negb bd && (1 <=? start - walk)) eqn:Hbot.
    + destruct (alive _ && key_matches ta k _ len); [discriminate|].
      apply Hstep. apply andb_true_iff in Hbot.
      destruct Hbot as [_ Hb%Z.leb_le]. lia.
    + apply Hstep. tauto.
Qed.

(** ** The counters *)

Lemma wrap32_add_l a b : wrap32 (wrap32 a + b) = wrap32 (a + b).
Proof. unfold wrap32. apply Zplus_mod_idemp_l. Qed.

Lemma wrap32_add_r a b : wrap32 (a + wrap32 b) = wrap32 (a + b).
Proof. unfold wrap32. apply Zplus_mod_idemp_r. Qed.

Lemma wrap32_sub_l a b : wrap32 (wrap32 a - b) = wrap32 (a - b).
Proof. unfold wrap32. apply Zminus_mod_idemp_l. Qed.

Lemma wrap32_sub_r a b : wrap32 (a - wrap32 b) = wrap32 (a - b).
Proof. unfold wrap32. apply Zminus_mod_idemp_r. Qed.

Lemma wrap32_nonneg a : 0 <= wrap32 a.
Proof. unfold wrap32. apply Z.mod_pos_bound. reflexivity. Qed.

Ltac wrap32_solve :=
  repeat first [rewrite wrap32_add_l | rewrite wrap32_add_r
               | rewrite wrap32_sub_l | rewrite wrap32_sub_r];
  f_equal; lia.

Lemma Forall_upd (P : entry -> Prop) n e l :
  Forall P l -> P e -> Forall P (upd n e l).
Proof.
  intros Hl He. revert n. induction Hl as [|x l Hx Hl IH]; intros [|n]; simpl;
    constructor; auto.
Qed.

Lemma Forall_get_slot (P : entry -> Prop) ta i :
  Forall P (table ta) -> P zero_entry -> P (get_slot ta i).
Proof.
  intros Hl Hz. unfold get_slot.
  destruct (Nat.lt_ge_cases (Z.to_nat i) (length (table ta))) as [Hlt|Hge].
  - apply Forall_nth; assumption.
  - rewrite nth_overflow by exact Hge. exact Hz.
Qed.

Lemma get_set_same ta i e :
  (Z.to_nat i < length (table ta))%nat -> get_slot (set_slot ta i e) i = e.
Proof. intros H. unfold get_slot, set_slot; simpl. now apply nth_upd_eq. Qed.

Lemma get_set_other ta i j e :
  Z.to_nat i <> Z.to_nat j -> get_slot (set_slot ta i e) j = get_slot ta j.
Proof. intros H. unfold get_slot, set_slot; simpl. now apply nth_upd_neq. Qed.

Lemma weight_sum_set ta i e :
  (Z.to_nat i < length (table ta))%nat ->
  weight_sum (set_slot ta i e) = weight_sum ta - weight (get_slot ta i) + weight e.
Proof. intros H. unfold weight_sum, get_slot, set_slot; simpl. now apply sum_over_upd. Qed.

Lemma live_count_set ta i e :
  (Z.to_nat i < length (table ta))%nat ->
  live_count (set_slot ta i e)
  = live_count ta - (if alive (get_slot ta i) then 1 else 0)
    + (if alive e then 1 else 0).
Proof.
  intros H. unfold live_count, get_slot, set_slot; simpl.
  now rewrite (sum_over_upd _ _ _ _ zero_entry) by exact H.
Qed.

Lemma well_formed_set ta i e : well_formed ta -> well_formed (set_slot ta i e).
Proof. intros [H1 H2]. split; simpl; [exact H1|]. now rewrite upd_length. Qed.

Lemma get_slot_alive_range ta i :
  alive (get_slot ta i) = true -> (Z.to_nat i < length (table ta))%nat.
Proof. apply nth_alive_in_range. Qed.

Lemma insert_loop_S fuel ta r step :
  insert_loop (S fuel) ta r step =
  let r1 := set_probepos r (wrap32 (probepos r + 1)) in
  let ta1 := set_totalweight ta (wrap32 (totalweight ta + 1)) in
  let idx := slot_index ta1 (hash r1) (probepos r1) step in
  let e := get_slot ta1 idx in
  if negb (alive e) then
    match key e with
    | Some _ =>
        let pos := internal_search ta1 (deref (key r1)) (keylen r1) in
        if negb (pos =? -1) then
          let ta2 := set_slot ta1 idx r1 in
          let ta3 := set_slot ta2 pos (set_alive (get_slot ta2 pos) false) in
          Some (set_totalweight ta3
                  (wrap32 (totalweight ta3 - probepos (get_slot ta3 pos))),
                Return0)
        else Some (set_slot ta1 idx r1, Break r1)
    | None => Some (set_slot ta1 idx r1, Break r1)
    end
  else if (probepos e <? probepos r1)
          || ((probepos e =? probepos r1) && (hash r1 <? hash e)) then
    let ta2 := set_slot (set_maxprobe ta1 (MAX (probepos r1) (maxprobe ta1)))
                 idx r1 in
    insert_loop fuel ta2 e (step_of ta2 (hash e))
  else if (probepos e =? probepos r1) && (hash r1 =? hash e)
          && (strncmp (deref (key r1)) (deref (key e))
                (Z.to_nat (keylen r1)) =? 0) then
    let ta2 := set_slot ta1 idx (set_data e (data r1)) in
    Some (set_totalweight ta2 (wrap32 (totalweight ta2 - probepos r1)), Return0)
  else insert_loop fuel ta1 r1 step.
Proof. reflexivity. Qed.

(** What the probe loop leaves alone, and what it does to the counters. The
    candidate's probe position is part of the aggregate weight while the
    candidate is in hand. *)
Lemma insert_loop_counters fuel : forall ta r step ta' ex,
  well_formed ta ->
  Forall (fun e => 0 <= probepos e) (table ta) ->
  alive r = true ->
  totalweight ta = wrap32 (weight_sum ta + probepos r) ->
  insert_loop fuel ta r step = Some (ta', ex) ->
  well_formed ta' /\
  Forall (fun e => 0 <= probepos e) (table ta') /\
  totalweight ta' = wrap32 (weight_sum ta') /\
  live_count ta'
  = live_count ta + match ex with Break _ => 1 | Return0 => 0 end /\
  size ta' = size ta /\ step_prime ta' = step_prime ta /\
  elements ta' = elements ta /\
  hashf ta' = hashf ta /\ cmpf ta' = cmpf ta.
Proof.
  induction fuel as [|fuel IH]; intros ta r step ta' ex Hwf Hnn Hr Htw;
    [discriminate|].
  rewrite insert_loop_S. cbv zeta.
  set (r1 := set_probepos r (wrap32 (probepos r + 1))).
  set (ta1 := set_totalweight ta (wrap32 (totalweight ta + 1))).
  set (idx := slot_index ta1 (hash r1) (probepos r1) step).
  set (e := get_slot ta1 idx).
  assert (Hwf1 : well_formed ta1) by exact Hwf.
  assert (Hidx : (Z.to_nat idx < length (table ta1))%nat).
  { apply slot_in_array; [exact Hwf1|].
    apply slot_index_range. apply Hwf1. }
  assert (Hr1 : alive r1 = true) by exact Hr.
  assert (Hp1 : 0 <= probepos r1) by apply wrap32_nonneg.
  assert (Htw1 : totalweight ta1 = wrap32 (weight_sum ta1 + probepos r1)).
  { change (totalweight ta1) with (wrap32 (totalweight ta + 1)).
    change (weight_sum ta1) with (weight_sum ta).
    change (probepos r1) with (wrap32 (probepos r + 1)).
    rewrite Htw. wrap32_solve. }
  assert (Hnn1 : Forall (fun e => 0 <= probepos e) (table ta1)) by exact Hnn.
  assert (Hplace : forall ex',
             alive e = false ->
             Some (set_slot ta1 idx r1, ex') = Some (ta', ex) ->
             ex' = Break r1 ->
             well_formed ta' /\
             Forall (fun e => 0 <= probepos e) (table ta') /\
             totalweight ta' = wrap32 (weight_sum ta') /\
             live_count ta'
             = live_count ta + match ex with Break _ => 1 | Return0 => 0 end /\
             size ta' = size ta /\ step_prime ta' = step_prime ta /\
             elements ta' = elements ta /\
             hashf ta' = hashf ta /\ cmpf ta' = cmpf ta).
  { intros ex' He [= <- <-] ->.
    split; [now apply well_formed_set|].
    split; [now apply Forall_upd|].
    split.
    - rewrite weight_sum_set by exact Hidx. fold e.
      unfold weight at 1 2. rewrite He, Hr1.
      change (totalweight (set_slot ta1 idx r1)) with (totalweight ta1).
      rewrite Htw1. f_equal. lia.
    - split; [|repeat split].
      rewrite live_count_set by exact Hidx. fold e. rewrite He, Hr1.
      change (live_count ta1) with (live_count ta). lia. }
  destruct (alive e) eqn:He; cbn [negb].
  2:{ destruct (key e).
      2:{ intros H. apply (Hplace (Break r1)); [reflexivity | exact H | reflexivity]. }
      destruct (internal_search ta1 (deref (key r1)) (keylen r1) =? -1) eqn:Hpos;
        cbn [negb].
      { intros H. apply (Hplace (Break r1)); [reflexivity | exact H | reflexivity]. }
      apply Z.eqb_neq in Hpos.
      set (pos := internal_search ta1 (deref (key r1)) (keylen r1)) in *.
      destruct (internal_search_sound ta1 (deref (key r1)) (keylen r1) Hpos)
        as [Hf _]. fold pos in Hf.
      assert (Hposr : (Z.to_nat pos < length (table ta1))%nat)
        by now apply get_slot_alive_range.
      assert (Hne : Z.to_nat idx <> Z.to_nat pos).
      { intros Heq. unfold e, get_slot in He. unfold get_slot in Hf.
        rewrite Heq in He. congruence. }
      set (ta2 := set_slot ta1 idx r1).
      assert (Hg2 : get_slot ta2 pos = get_slot ta1 pos)
        by now apply get_set_other.
      assert (Hposr2 : (Z.to_nat pos < length (table ta2))%nat)
        by (unfold ta2, set_slot; simpl; now rewrite upd_length).
      rewrite Hg2.
      set (f := get_slot ta1 pos) in *.
      set (ta3 := set_slot ta2 pos (set_alive f false)).
      assert (Hg3 : get_slot ta3 pos = set_alive f false)
        by now apply get_set_same.
      rewrite Hg3. intros [= <- <-].
      split; [now repeat apply well_formed_set|].
      split.
      { simpl. apply Forall_upd.
        - now apply Forall_upd.
        - simpl. apply (Forall_get_slot (fun e => 0 <= probepos e) ta1 pos Hnn1).
          simpl. lia. }
      split.
      { change (weight_sum (set_totalweight ta3 _)) with (weight_sum ta3).
        unfold ta3. rewrite weight_sum_set by exact Hposr2.
        rewrite Hg2. unfold ta2. rewrite weight_sum_set by exact Hidx.
        fold e f. unfold weight. rewrite He, Hr1, Hf. simpl alive. cbv iota.
        simpl totalweight.
        change (wrap32 (totalweight ta + 1)) with (totalweight ta1).
        rewrite Htw1.
        change (probepos (set_alive f false)) with (probepos f).
        wrap32_solve. }
      split; [|repeat split].
      change (live_count (set_totalweight ta3 _)) with (live_count ta3).
      unfold ta3. rewrite live_count_set by exact Hposr2.
      rewrite Hg2. unfold ta2. rewrite live_count_set by exact Hidx.
      fold e f. rewrite He, Hr1, Hf. simpl alive. cbv iota.
      change (live_count ta1) with (live_count ta). lia. }
  destruct ((probepos e <? probepos r1)
            || (probepos e =? probepos r1) && (hash r1 <? hash e)).
  { set (ta2 := set_slot (set_maxprobe ta1 (MAX (probepos r1) (maxprobe ta1)))
                  idx r1).
    intros H. apply IH in H.
    - destruct H as (H1 & H2 & H3 & H4 & H5 & H6 & H7 & H8 & H9).
      split; [exact H1|]. split; [exact H2|]. split; [exact H3|].
      split; [|repeat split; assumption].
      rewrite H4. unfold ta2. rewrite live_count_set by exact Hidx.
      change (get_slot (set_maxprobe ta1 _) idx) with e.
      rewrite He, Hr1.
      change (live_count (set_maxprobe ta1 _)) with (live_count ta). lia.
    - now apply well_formed_set.
    - now apply Forall_upd.
    - exact He.
    - unfold ta2. rewrite weight_sum_set by exact Hidx.
      change (get_slot (set_maxprobe ta1 _) idx) with e.
      unfold weight. rewrite He, Hr1.
      change (totalweight (set_slot _ idx r1)) with (totalweight ta1).
      change (weight_sum (set_maxprobe ta1 _)) with (weight_sum ta1).
      rewrite Htw1. f_equal. lia. }
  destruct ((probepos e =? probepos r1) && (hash r1 =? hash e)
            && (strncmp (deref (key r1)) (deref (key e))
                  (Z.to_nat (keylen r1)) =? 0)).
  { intros [= <- <-].
    split; [now apply well_formed_set|].
    split.
    { simpl. apply Forall_upd; [exact Hnn1|]. simpl.
      apply (Forall_get_slot (fun e => 0 <= probepos e) ta1 idx Hnn1).
      simpl. lia. }
    split.
    { change (weight_sum (set_totalweight _ _))
        with (weight_sum (set_slot ta1 idx (set_data e (data r1)))).
      rewrite weight_sum_set by exact Hidx. fold e.
      unfold weight.
      change (alive (set_data e (data r1))) with (alive e).
      change (probepos (set_data e (data r1))) with (probepos e).
      rewrite He.
      simpl totalweight.
        change (wrap32 (totalweight ta + 1)) with (totalweight ta1).
        change (wrap32 (probepos r + 1)) with (probepos r1).
        rewrite Htw1. wrap32_solve. }
    split; [|repeat split].
    change (live_count (set_totalweight _ _))
      with (live_count (set_slot ta1 idx (set_data e (data r1)))).
    rewrite live_count_set by exact Hidx. fold e.
    change (alive (set_data e (data r1))) with (alive e). rewrite He.
    change (live_count ta1) with (live_count ta). lia. }
  intros H. apply IH in H; assumption.
Qed.

Lemma table_insert_S c fuel ta k len d :
  table_insert c (S fuel) ta k len d =
  if elements ta =? size ta then Some (ta, -1)
  else
    match (if load_exceeds ta
           then grow_table_with c (table_insert c fuel) fuel ta
           else Some (ta, 0)) with
    | None => None
    | Some (ta1, _) =>
        place fuel ta1 (candidate ta k len d) (step_of ta (hashf ta k len))
    end.
Proof. reflexivity. Qed.

Lemma sum_over_repeat f n : f zero_entry = 0 -> sum_over f (repeat zero_entry n) = 0.
Proof. intros H. induction n as [|n IH]; simpl; lia. Qed.

Lemma counters_ok_zero n sp h c :
  0 < n ->
  counters_ok (mkTable (repeat zero_entry (Z.to_nat n)) n sp 0 0 0 h c).
Proof.
  intros Hn. split; [|split; [|split]].
  - split; simpl; [exact Hn | apply repeat_length].
  - simpl. apply Forall_forall. intros e He. apply repeat_spec in He.
    subst e. simpl. lia.
  - unfold weight_sum; simpl. now rewrite sum_over_repeat.
  - unfold live_count; simpl. now rewrite sum_over_repeat.
Qed.

Lemma is_prime_gt_1 n : is_prime n <> 0 -> 1 < n.
Proof.
  unfold is_prime. destruct (n <=? 1) eqn:H; [congruence|].
  intros _. apply Z.leb_gt in H. exact H.
Qed.

Lemma walk_up_prime fuel : forall n m,
  walk_up fuel n = Some m -> is_prime m <> 0.
Proof.
  induction fuel as [|fuel IH]; intros n m; simpl; [discriminate|].
  destruct (is_prime n =? 0) eqn:H; [apply IH|].
  intros [= <-]. now apply Z.eqb_neq in H.
Qed.

Lemma walk_down_prime fuel : forall n m,
  walk_down fuel n = Some m -> is_prime m <> 0.
Proof.
  induction fuel as [|fuel IH]; intros n m; simpl; [discriminate|].
  destruct (is_prime n =? 0) eqn:H; [apply IH|].
  intros [= <-]. now apply Z.eqb_neq in H.
Qed.

(** The counting of a newly placed element after the loop. *)
Lemma place_counters fuel ta r step ta' ret :
  counters_ok ta -> alive r = true -> probepos r = 0 ->
  place fuel ta r step = Some (ta', ret) ->
  counters_ok ta' /\ ret = 0 /\ size ta' = size ta /\
  step_prime ta' = step_prime ta /\
  hashf ta' = hashf ta /\ cmpf ta' = cmpf ta /\
  (elements ta' = elements ta \/ elements ta' = wrap32 (elements ta + 1)).
Proof.
  intros (Hwf & Hnn & Htw & Hel) Hr Hp. unfold place.
  destruct (insert_loop fuel ta r step) as [[ta1 ex]|] eqn:Hloop;
    [|discriminate].
  apply insert_loop_counters in Hloop; try assumption.
  2:{ rewrite Hp, Z.add_0_r. exact Htw. }
  destruct Hloop as (H1 & H2 & H3 & H4 & H5 & H6 & H7 & H8 & H9).
  destruct ex as [r'|]; intros [= <- <-].
  - split; [|repeat split; try assumption; right; simpl; now rewrite H7].
    split; [exact H1|]. split; [exact H2|]. split; [exact H3|].
    simpl. rewrite H7, Hel.
    change (live_count (set_maxprobe _ _)) with (live_count ta1).
    rewrite H4. wrap32_solve.
  - split; [|repeat split; try assumption; left; exact H7].
    split; [exact H1|]. split; [exact H2|]. split; [exact H3|].
    rewrite H7, Hel, H4. f_equal. lia.
Qed.

Section Preservation.

Variable c : Z -> bool.

Lemma replay_counters ins old : preserving ins ->
  forall ta ta',
    counters_ok ta -> replay ins old ta = Some ta' -> counters_ok ta'.
Proof.
  intros Hins. induction old as [|e old IH]; intros ta ta' Hok; simpl.
  - now intros [= <-].
  - destruct (alive e); [|now apply IH].
    destruct (key e) as [k|]; [|discriminate].
    destruct (ins ta k (keylen e) (data e)) as [[ta1 ret]|] eqn:Hi;
      [|discriminate].
    apply IH. eapply Hins; eassumption.
Qed.

Lemma grow_table_with_counters ins fuel ta ta' ret : preserving ins ->
  counters_ok ta -> grow_table_with c ins fuel ta = Some (ta', ret) ->
  counters_ok ta'.
Proof.
  intros Hins Hok. unfold grow_table_with.
  destruct (next_prime_size fuel (size ta) scalar) as [n|] eqn:Hn;
    [|discriminate].
  destruct (negb (c n)); [now intros [= <- <-]|].
  destruct (next_prime_step n) as [sp|]; [|discriminate].
  destruct (replay ins _ _) as [ta1|] eqn:Hrep; [|discriminate].
  intros [= <- <-]. eapply replay_counters; [exact Hins| |exact Hrep].
  apply counters_ok_zero. apply walk_up_prime, is_prime_gt_1 in Hn. lia.
Qed.

Lemma table_insert_counters fuel : preserving (table_insert c fuel).
Proof.
  induction fuel as [|fuel IH]; intros ta k len d ta' ret Hok;
    [discriminate|].
  rewrite table_insert_S.
  destruct (elements ta =? size ta); [now intros [= <- <-]|].
  destruct (if load_exceeds ta then _ else _) as [[ta1 r1]|] eqn:Hg;
    [|discriminate].
  assert (Hok1 : counters_ok ta1).
  { destruct (load_exceeds ta).
    - eapply grow_table_with_counters; [exact IH|exact Hok|exact Hg].
    - now injection Hg as <- _. }
  intros Hp. apply place_counters in Hp; [apply Hp|exact Hok1| |];
    reflexivity.
Qed.

Lemma grow_table_counters fuel ta ta' ret :
  counters_ok ta -> grow_table c fuel ta = Some (ta', ret) -> counters_ok ta'.
Proof.
  intros Hok. apply grow_table_with_counters; [|exact Hok].
  apply table_insert_counters.
Qed.

End Preservation.

Lemma table_remove_counters ta k len ta' ret :
  counters_ok ta -> table_remove ta k len = (ta', ret) -> counters_ok ta'.
Proof.
  intros (Hwf & Hnn & Htw & Hel). unfold table_remove. cbv zeta.
  set (pos := internal_search ta k len).
  destruct (pos >? 0) eqn:Hpos; [|now intros [= <- <-]].
  assert (Hne : pos <> -1) by (apply Z.gtb_lt in Hpos; lia).
  destruct (internal_search_sound ta k len Hne) as [Hf _]. fold pos in Hf.
  assert (Hr : (Z.to_nat pos < length (table ta))%nat)
    by now apply get_slot_alive_range.
  set (f := get_slot ta pos) in *.
  set (ta1 := set_slot ta pos (set_alive f false)).
  assert (Hg : get_slot (set_elements ta1 (wrap32 (elements ta1 - 1))) pos
               = set_alive f false).
  { change (get_slot ta1 pos = set_alive f false). now apply get_set_same. }
  rewrite Hg.
  intros [= <- <-].
  split; [now apply well_formed_set|].
  split.
  { simpl. apply Forall_upd; [exact Hnn|]. simpl.
    apply (Forall_get_slot (fun e => 0 <= probepos e) ta pos Hnn). simpl. lia. }
  split.
  - change (weight_sum (set_totalweight _ _)) with (weight_sum ta1).
    unfold ta1. rewrite weight_sum_set by exact Hr. fold f.
    unfold weight. rewrite Hf. simpl alive. cbv iota.
    change (probepos (set_alive f false)) with (probepos f).
    simpl totalweight. rewrite Htw. wrap32_solve.
  - change (live_count (set_totalweight _ _)) with (live_count ta1).
    unfold ta1. rewrite live_count_set by exact Hr. fold f.
    rewrite Hf. simpl alive. cbv iota.
    simpl elements. rewrite Hel. wrap32_solve.
Qed.

Lemma table_new_counters m c h f ta :
  table_new m c h f = Some ta -> counters_ok ta.
Proof.
  unfold table_new. destruct (negb m); [discriminate|].
  destruct (negb (c TABLE_SIZE_DEFAULT)); [discriminate|].
  destruct (next_prime_step TABLE_SIZE_DEFAULT); [|discriminate].
  intros [= <-]. apply counters_ok_zero. reflexivity.
Qed.

Lemma reachable_counters ta : reachable ta -> counters_ok ta.
Proof.
  induction 1 as [m c h f ta H | c fuel ta k len d ta' ret _ IH H
                 | ta k len ta' ret _ IH H | c fuel ta ta' ret _ IH H].
  - eapply table_new_counters; exact H.
  - eapply table_insert_counters; eassumption.
  - eapply table_remove_counters; eassumption.
  - eapply grow_table_counters; eassumption.
Qed.

Lemma sum_over_nonneg f l : Forall (fun e => 0 <= f e) l -> 0 <= sum_over f l.
Proof. induction 1 as [|e l He Hl IH]; simpl in *; lia. Qed.

Lemma weight_sum_nonneg ta :
  Forall (fun e => 0 <= probepos e) (table ta) -> 0 <= weight_sum ta.
Proof.
  intros H. apply sum_over_nonneg. eapply Forall_impl; [|exact H].
  intros e He. simpl in He. unfold weight. destruct (alive e); lia.
Qed.

(** C2. In every reachable state the 32-bit counter [totalweight] holds the
    sum of [probepos] over the live entries, reduced as an [unsigned int]
    is; it is that sum whenever the sum fits the counter. *)
Theorem weight_accounting ta :
  reachable ta ->
  totalweight ta = wrap32 (weight_sum ta) /\
  (weight_sum ta < 2 ^ 32 -> totalweight ta = weight_sum ta).
Proof.
  intros H. apply reachable_counters in H.
  destruct H as (Hwf & Hnn & Htw & Hel). split; [exact Htw|].
  intros Hlt. rewrite Htw. unfold wrap32. apply Z.mod_small.
  split; [now apply weight_sum_nonneg | exact Hlt].
Qed.

Lemma run_ops_reachable c fuel ops : forall ta ta' rets,
  reachable ta -> run_ops c fuel ops ta = Some (ta', rets) -> reachable ta'.
Proof.
  induction ops as [|[k d|k] ops IH]; intros ta ta' rets Hr; simpl.
  - now intros [= <- _].
  - destruct (table_insert c fuel ta k _ d) as [[ta1 ret]|] eqn:Hi;
      [|discriminate].
    destruct (run_ops c fuel ops ta1) as [[ta2 rets']|] eqn:Ho;
      [|discriminate].
    intros [= <- _]. eapply IH; [|exact Ho].
    eapply reach_insert; eassumption.
  - destruct (table_remove ta k _) as [ta1 ret] eqn:Hi.
    destruct (run_ops c fuel ops ta1) as [[ta2 rets']|] eqn:Ho;
      [|discriminate].
    intros [= <- _]. eapply IH; [|exact Ho].
    eapply reach_remove; eassumption.
Qed.

Lemma table_new_fresh :
  table_new true (always true) None None = Some fresh_table.
Proof. reflexivity. Qed.

Lemma insert_fbar :
  table_insert (always true) 10 fresh_table key_fbar 4 7
  = Some (slot0_table, 0).
Proof. reflexivity. Qed.

Lemma insert_aa :
  table_insert (always true) 10 fresh_table key_aa 2 1 = Some (aa_table, 0).
Proof. reflexivity. Qed.

Lemma table_after_reachable ops : reachable (table_after ops).
Proof.
  assert (H0 : reachable fresh_table)
    by (eapply reach_new; exact table_new_fresh).
  unfold table_after.
  destruct (run_ops _ _ ops fresh_table) as [[ta rets]|] eqn:H; [|exact H0].
  eapply run_ops_reachable; eassumption.
Qed.

Lemma weight_accounting_witness :
  size table_grown = 1367 /\ weight_sum table_grown = 1038 /\
  totalweight table_grown = weight_sum table_grown.
Proof.
  split; [vm_compute; reflexivity|]. split; [vm_compute; reflexivity|].
  apply (weight_accounting table_grown).
  - apply table_after_reachable.
  - vm_compute; reflexivity.
Defined.

(** The probe loop never touches the capacity, the step modulus, the element
    count or the strategies. *)
Lemma insert_loop_frame fuel : forall ta r step ta' ex,
  insert_loop fuel ta r step = Some (ta', ex) ->
  size ta' = size ta /\ step_prime ta' = step_prime ta /\
  elements ta' = elements ta /\ hashf ta' = hashf ta /\ cmpf ta' = cmpf ta.
Proof.
  induction fuel as [|fuel IH]; intros ta r step ta' ex; [discriminate|].
  rewrite insert_loop_S. cbv zeta.
  destruct (negb (alive _)).
  - destruct (key _); [destruct (negb _)|]; intros [= <- <-]; repeat split.
  - destruct (_ || _); [intros H; apply IH in H; exact H|].
    destruct (_ && _); [intros [= <- <-]; repeat split|].
    intros H; apply IH in H; exact H.
Qed.

Lemma place_frame fuel ta r step ta' ret :
  place fuel ta r step = Some (ta', ret) ->
  ret = 0 /\ size ta' = size ta /\ step_prime ta' = step_prime ta /\
  (elements ta' = elements ta \/ elements ta' = wrap32 (elements ta + 1)).
Proof.
  unfold place.
  destruct (insert_loop fuel ta r step) as [[ta1 ex]|] eqn:Hloop;
    [|discriminate].
  apply insert_loop_frame in Hloop. destruct Hloop as (H1 & H2 & H3 & _).
  destruct ex; intros [= <- <-]; simpl; repeat split; try assumption.
  - right. now rewrite H3.
  - now left.
Qed.

(** ** Growth *)

Lemma table_insert_cases c fuel ta k len d :
  elements ta <> size ta ->
  table_insert c (S fuel) ta k len d
  = (if load_exceeds ta
     then match grow_table c fuel ta with
          | None => None
          | Some (ta1, _) =>
              place fuel ta1 (candidate ta k len d)
                (step_of ta (hashf ta k len))
          end
     else place fuel ta (candidate ta k len d) (step_of ta (hashf ta k len))).
Proof.
  intros Hfull. apply Z.eqb_neq in Hfull.
  rewrite table_insert_S, Hfull. unfold grow_table.
  destruct (load_exceeds ta); reflexivity.
Qed.

(** C5, as amended. On a table that is not full, Growth runs before the key
    is placed exactly when the load factor of the table as it stands,
    [elements / size] in single precision, exceeds 0.95. An insert that ran
    no Growth keeps the capacity and adds at most one element. *)
Theorem growth_trigger c fuel ta k len d :
  elements ta <> size ta ->
  table_insert c (S fuel) ta k len d
  = (if load_exceeds ta
     then match grow_table c fuel ta with
          | None => None
          | Some (ta1, _) =>
              place fuel ta1 (candidate ta k len d)
                (step_of ta (hashf ta k len))
          end
     else place fuel ta (candidate ta k len d) (step_of ta (hashf ta k len)))
  /\ (forall ta' ret,
        load_exceeds ta = false ->
        table_insert c (S fuel) ta k len d = Some (ta', ret) ->
        ret = 0 /\ size ta' = size ta /\
        (elements ta' = elements ta \/
         elements ta' = wrap32 (elements ta + 1))).
Proof.
  intros Hfull. pose proof (table_insert_cases c fuel ta k len d Hfull) as Heq.
  split; [exact Heq|].
  intros ta' ret Hload. rewrite Heq, Hload. intros H.
  apply place_frame in H. tauto.
Qed.

Lemma growth_trigger_witness :
  elements table_519 <> size table_519 /\
  load_exceeds table_519 = false /\
  table_insert (always true) 40 table_519 (nth_key 519) 2 520
  = place 39 table_519 (candidate table_519 (nth_key 519) 2 520)
      (step_of table_519 (hashf table_519 (nth_key 519) 2)).
Proof.
  assert (H : elements table_519 <> size table_519)
    by (vm_compute; discriminate).
  assert (L : load_exceeds table_519 = false) by (vm_compute; reflexivity).
  split; [exact H|]. split; [exact L|].
  destruct (growth_trigger (always true) 39 table_519 (nth_key 519) 2 520 H)
    as [Heq _].
  rewrite Heq, L. reflexivity.
Defined.

(** C7, as amended. When the allocation of the new array fails, Growth
    leaves the table as it was and returns -1. [table_insert] drops that
    result: it places the key in the unexpanded table and returns 0. *)
Theorem growth_failure_ignored c fuel ta new_size k len d :
  next_prime_size fuel (size ta) scalar = Some new_size ->
  c new_size = false ->
  elements ta <> size ta ->
  load_exceeds ta = true ->
  grow_table c fuel ta = Some (ta, -1) /\
  table_insert c (S fuel) ta k len d
  = place fuel ta (candidate ta k len d) (step_of ta (hashf ta k len)) /\
  (forall ta' ret,
     table_insert c (S fuel) ta k len d = Some (ta', ret) ->
     ret = 0 /\ size ta' = size ta /\ step_prime ta' = step_prime ta).
Proof.
  intros Hn Hc Hfull Hload.
  assert (Hg : grow_table c fuel ta = Some (ta, -1)).
  { unfold grow_table, grow_table_with. now rewrite Hn, Hc. }
  assert (Heq : table_insert c (S fuel) ta k len d
                = place fuel ta (candidate ta k len d)
                    (step_of ta (hashf ta k len))).
  { rewrite (table_insert_cases c fuel ta k len d Hfull), Hload, Hg.
    reflexivity. }
  split; [exact Hg|]. split; [exact Heq|].
  intros ta' ret. rewrite Heq. intros H. apply place_frame in H. tauto.
Qed.

Lemma growth_failure_ignored_witness :
  grow_table (always false) 39 table_520 = Some (table_520, -1) /\
  table_insert (always false) 40 table_520 (nth_key 520) 2 521
  = place 39 table_520 (candidate table_520 (nth_key 520) 2 521)
      (step_of table_520 (hashf table_520 (nth_key 520) 2)).
Proof.
  destruct (growth_failure_ignored (always false) 39 table_520 1367
              (nth_key 520) 2 521) as (H1 & H2 & _).
  - vm_compute; reflexivity.
  - reflexivity.
  - vm_compute; discriminate.
  - vm_compute; reflexivity.
  - split; assumption.
Defined.

(** ** Lookup and removal *)

(** C8. A search result of 0 is consumed as a miss: [table_get] answers -1
    with a null payload and [table_remove] answers -1 and leaves the table
    as it is; both report success exactly for results above 0. *)
Theorem slot_zero_convention ta k len pos :
  internal_search ta k len = pos ->
  (pos = 0 ->
   table_get ta k len = (-1, NULL) /\ table_remove ta k len = (ta, -1)) /\
  (fst (table_get ta k len) = 0 <-> 0 < pos) /\
  (snd (table_remove ta k len) = 0 <-> 0 < pos).
Proof.
  intros Hpos. unfold table_get, table_remove. cbv zeta. rewrite Hpos.
  destruct (pos >? 0) eqn:H.
  - apply Z.gtb_lt in H. simpl. repeat split; intros; try lia.
  - assert (~ 0 < pos) by (intros H'; apply Z.gtb_lt in H'; congruence).
    simpl. repeat split; intros; try lia; try discriminate.
Qed.

Lemma slot_zero_convention_witness :
  alive (get_slot slot0_table 0) = true /\
  key (get_slot slot0_table 0) = Some key_fbar /\
  internal_search slot0_table key_fbar 4 = 0 /\
  table_get slot0_table key_fbar 4 = (-1, NULL) /\
  table_remove slot0_table key_fbar 4 = (slot0_table, -1).
Proof.
  assert (H : internal_search slot0_table key_fbar 4 = 0)
    by (vm_compute; reflexivity).
  split; [reflexivity|]. split; [reflexivity|]. split; [exact H|].
  destruct (slot_zero_convention slot0_table key_fbar 4 0 H) as [H0 _].
  apply H0. reflexivity.
Defined.

(** C9. A search result other than -1 names a live entry whose stored key
    the comparison function reports equal over [keylen] bytes. So
    [table_get] either misses, with a null payload, or returns the payload
    of such an entry. *)
Theorem search_soundness ta k len ret d :
  table_get ta k len = (ret, d) ->
  (0 <= internal_search ta k len ->
   alive (get_slot ta (internal_search ta k len)) = true /\
   cmpf ta k (deref (key (get_slot ta (internal_search ta k len)))) len = 0)
  /\
  ((ret = -1 /\ d = NULL) \/
   (ret = 0 /\ exists pos,
      0 < pos /\ d = data (get_slot ta pos) /\
      alive (get_slot ta pos) = true /\
      cmpf ta k (deref (key (get_slot ta pos))) len = 0)).
Proof.
  intros Hget. split.
  - intros H. apply internal_search_sound. lia.
  - revert Hget. unfold table_get. cbv zeta.
    destruct (internal_search ta k len >? 0) eqn:H; intros [= <- <-].
    + right. split; [reflexivity|]. exists (internal_search ta k len).
      apply Z.gtb_lt in H. split; [exact H|]. split; [reflexivity|].
      apply internal_search_sound. lia.
    + left. split; reflexivity.
Qed.

Lemma search_soundness_witness :
  table_get aa_table key_aa 2 = (0, 1) /\
  alive (get_slot aa_table (internal_search aa_table key_aa 2)) = true /\
  cmpf aa_table key_aa
    (deref (key (get_slot aa_table (internal_search aa_table key_aa 2)))) 2 = 0.
Proof.
  assert (H : table_get aa_table key_aa 2 = (0, 1)) by (vm_compute; reflexivity).
  split; [exact H|].
  destruct (search_soundness aa_table key_aa 2 0 1 H) as [H0 _].
  apply H0. vm_compute. discriminate.
Defined.

(** C5, the claim refuted. With 519 of 547 slots live the load factor after
    one more insert would exceed 0.95, but the insert of a new key runs no
    Growth: the capacity stays 547, and the load factor exceeds the
    threshold when the insert has returned. *)
Lemma no_growth_on_hypothetical_load :
  after (run_ops (always true) 40 (first_inserts 519) fresh_table)
    (fun '(t519, rets) =>
       forallb (Z.eqb 0) rets = true /\ elements t519 = 519 /\
       load_exceeds (set_elements t519 (elements t519 + 1)) = true /\
       after (table_insert (always true) 40 t519 (nth_key 519) 2 520)
         (fun '(t520, ret) =>
            ret = 0 /\ size t520 = 547 /\ elements t520 = 520 /\
            load_exceeds t520 = true)).
Proof. vm_compute. repeat split. Qed.

(** C7, the claim refuted. The table holds 520 keys, above the load
    threshold, and the allocator refuses the new array. Growth reports -1,
    but the insert returns 0 with the key placed in the array of 547 slots. *)
Lemma insert_ignores_growth_failure :
  after (run_ops (always true) 40 (first_inserts 520) fresh_table)
    (fun '(t520, rets) =>
       forallb (Z.eqb 0) rets = true /\ load_exceeds t520 = true /\
       after (grow_table (always false) 39 t520) (fun '(_, ret) => ret = -1) /\
       after (table_insert (always false) 40 t520 (nth_key 520) 2 521)
         (fun '(t521, ret) =>
            ret = 0 /\ size t521 = 547 /\ elements t521 = 521 /\
            table_get t521 (nth_key 520) 2 = (0, 521))).
Proof. vm_compute. repeat split. Qed.

(** ** Probe sequences *)

Section Probing.

Variables sz z : Z.
Hypothesis sz_prime : Z.prime sz.
Hypothesis sz_small : sz < 2 ^ 31.
Hypothesis z_range : 0 <= z < sz.

(** With a prime capacity, every step below it visits every slot within
    [sz] consecutive probes. *)
Lemma arithmetic_cover step a p0 :
  0 < step < sz ->
  exists j, 1 <= j <= sz /\ (a + (p0 + j) * step) mod sz = z.
Proof.
  intros Hstep.
  assert (Hsz : 0 < sz) by lia.
  destruct (Z.Bezout_coprime sz step) as (v & u & Hb').
  { apply Z.coprime_prime_small; [exact sz_prime | lia]. }
  assert (Hb : u * step + v * sz = 1) by lia.
  set (w := z - a - p0 * step).
  pose proof (Z.div_mod (u * w - 1) sz ltac:(lia)) as Hdm.
  pose proof (Z.mod_pos_bound (u * w - 1) sz Hsz) as Hr.
  set (q := (u * w - 1) / sz) in *. set (r := (u * w - 1) mod sz) in *.
  exists (r + 1). split; [lia|].
  assert (E : (r + 1) * step = w - (v * w + q * step) * sz).
  { replace (r + 1) with (u * w - sz * q) by lia.
    transitivity (w * (u * step + v * sz) - (v * w + q * step) * sz);
      [ring | rewrite Hb; ring]. }
  replace (a + (p0 + (r + 1)) * step)
    with (z + (- (v * w + q * step)) * sz)
    by (unfold w in *; lia).
  rewrite Z_mod_plus_full. apply Z.mod_small. exact z_range.
Qed.

Lemma wrap64_shift x c :
  c * 2 ^ 64 <= x < (c + 1) * 2 ^ 64 -> wrap64 x = x - c * 2 ^ 64.
Proof.
  intros H. unfold wrap64. symmetry.
  apply (Zmod_unique x (2 ^ 64) c); lia.
Qed.

(** The same in [unsigned long] arithmetic, where the sum can wrap once:
    two rounds are enough. *)
Lemma wrapped_cover h step p0 :
  0 < step < sz ->
  exists j, 1 <= j <= 2 * sz /\ wrap64 (h + (p0 + j) * step) mod sz = z.
Proof.
  intros Hstep.
  set (c := (h + (p0 + 1) * step) / 2 ^ 64).
  assert (Hc : c * 2 ^ 64 <= h + (p0 + 1) * step < (c + 1) * 2 ^ 64).
  { pose proof (Z.div_mod (h + (p0 + 1) * step) (2 ^ 64) ltac:(lia)) as Hdm.
    pose proof (Z.mod_pos_bound (h + (p0 + 1) * step) (2 ^ 64) ltac:(lia)).
    fold c in Hdm. lia. }
  assert (Hsq : 2 * sz * sz < 2 ^ 63) by nia.
  destruct (Z_lt_ge_dec (h + (p0 + sz) * step) ((c + 1) * 2 ^ 64)) as [Hlt|Hge].
  - destruct (arithmetic_cover step (h - c * 2 ^ 64) p0 Hstep) as (j & Hj & Hz).
    exists j. split; [lia|].
    rewrite (wrap64_shift _ c).
    + rewrite <- Hz. f_equal. lia.
    + split; nia.
  - destruct (arithmetic_cover step (h - (c + 1) * 2 ^ 64) (p0 + sz - 1) Hstep)
      as (j & Hj & Hz).
    exists (sz - 1 + j). split; [lia|].
    rewrite (wrap64_shift _ (c + 1)).
    + rewrite <- Hz. f_equal. lia.
    + split; nia.
Qed.

(** [dist] finds the first hit of a window that has one. *)
Lemma dist_more n : forall h step p,
  (exists j, 1 <= j <= Z.of_nat n /\
             wrap64 (h + (p + j) * step) mod sz = z) ->
  dist (S n) sz z h step p = dist n sz z h step p.
Proof.
  induction n as [|n IH]; intros h step p (j & Hj & Hz); [lia|].
  change (dist (S (S n)) sz z h step p)
    with (if wrap64 (h + (p + 1) * step) mod sz =? z then 1%nat
          else S (dist (S n) sz z h step (p + 1))).
  change (dist (S n) sz z h step p)
    with (if wrap64 (h + (p + 1) * step) mod sz =? z then 1%nat
          else S (dist n sz z h step (p + 1))).
  destruct (wrap64 (h + (p + 1) * step) mod sz =? z) eqn:H1; [reflexivity|].
  f_equal. apply IH. exists (j - 1).
  assert (j <> 1).
  { intros ->. apply Z.eqb_neq in H1. contradiction. }
  split; [lia|]. rewrite <- Hz. do 3 f_equal. lia.
Qed.

Lemma reach_bounds h step p : 1 <= reach sz z h step p <= 2 * sz.
Proof.
  unfold reach.
  assert (H : forall n q, (dist n sz z h step q <= n)%nat).
  { induction n as [|n IH]; intros q; simpl; [lia|].
    destruct (_ =? z); [lia|]. specialize (IH (q + 1)). lia. }
  specialize (H (Z.to_nat (2 * sz)) p).
  assert (Z.to_nat (2 * sz) = S (Z.to_nat (2 * sz - 1))) as E by lia.
  rewrite E in *. simpl dist in *.
  destruct (_ =? z); lia.
Qed.

(** A probe that misses [z] brings the sequence one probe closer. *)
Lemma reach_step h step p :
  0 < step < sz ->
  wrap64 (h + (p + 1) * step) mod sz <> z ->
  reach sz z h step p = 1 + reach sz z h step (p + 1).
Proof.
  intros Hstep Hmiss. unfold reach.
  assert (Z.to_nat (2 * sz) = S (Z.to_nat (2 * sz - 1))) as E by lia.
  rewrite E.
  rewrite (dist_more (Z.to_nat (2 * sz - 1)) h step (p + 1)).
  - change (dist (S (Z.to_nat (2 * sz - 1))) sz z h step p)
      with (if wrap64 (h + (p + 1) * step) mod sz =? z then 1%nat
            else S (dist (Z.to_nat (2 * sz - 1)) sz z h step (p + 1))).
    apply Z.eqb_neq in Hmiss. rewrite Hmiss. lia.
  - destruct (wrapped_cover h step p Hstep) as (j & Hj & Hz).
    assert (j <> 1) by (intros ->; contradiction).
    exists (j - 1). split; [lia|]. rewrite <- Hz. do 3 f_equal. lia.
Qed.

(** *** Termination of the probe loop *)

Variable sp : Z.
Hypothesis sp_range : 0 < sp < sz.

Lemma derived_step_range h : 0 < sp - h mod sp < sz.
Proof. pose proof (Z.mod_pos_bound h sp ltac:(lia)). lia. Qed.

Lemma budget_bounds e : 0 <= budget sz sp z e <= 2 * sz.
Proof.
  unfold budget. destruct (alive e); [|lia].
  pose proof (reach_bounds (hash e) (sp - hash e mod sp) (probepos e)).
  lia.
Qed.

Lemma in_hand_pos r step : 1 <= in_hand sz sp z r step.
Proof.
  unfold in_hand.
  pose proof (reach_bounds (hash r) step (probepos r)).
  destruct (step =? _); lia.
Qed.

(** A record that has just missed [z] and is stored keeps less than it
    had in hand. *)
Lemma budget_stored r step :
  0 < step < sz ->
  wrap64 (hash r + (probepos r + 1) * step) mod sz <> z ->
  budget sz sp z (set_probepos r (probepos r + 1)) + 1
  <= in_hand sz sp z r step.
Proof.
  intros Hstep Hmiss. unfold in_hand.
  pose proof (budget_bounds (set_probepos r (probepos r + 1))) as Hb.
  pose proof (reach_bounds (hash r) step (probepos r)) as Hr.
  destruct (step =? sp - hash r mod sp) eqn:E; [|lia].
  apply Z.eqb_eq in E.
  rewrite (reach_step _ _ _ Hstep Hmiss).
  unfold budget. cbn [alive hash probepos set_probepos]. destruct (alive r).
  - rewrite <- E. lia.
  - pose proof (reach_bounds (hash r) step (probepos r + 1)). lia.
Qed.

(** A record that has just missed [z] and stays in hand has one probe
    less to walk. *)
Lemma in_hand_next r step :
  0 < step < sz ->
  wrap64 (hash r + (probepos r + 1) * step) mod sz <> z ->
  in_hand sz sp z (set_probepos r (probepos r + 1)) step
  = in_hand sz sp z r step - 1.
Proof.
  intros Hstep Hmiss. unfold in_hand. cbn [alive hash probepos set_probepos].
  rewrite (reach_step _ _ _ Hstep Hmiss).
  lia.
Qed.

Lemma budget_sum_nonneg l : 0 <= sum_over (budget sz sp z) l.
Proof.
  induction l as [|e l IH]; simpl; [lia|].
  pose proof (budget_bounds e). lia.
Qed.

(** The loop returns before the records have walked their budgets. *)
Lemma insert_loop_total fuel : forall ta r step,
  loop_state sz sp z ta r step ->
  in_hand sz sp z r step + sum_over (budget sz sp z) (table ta)
  <= Z.of_nat fuel ->
  exists ta' ex, insert_loop fuel ta r step = Some (ta', ex).
Proof.
  induction fuel as [|fuel IH]; intros ta r step
    (Hwf & Hsz & Hsp & Hstep & Hz & Hp0 & Hp & Hall) Hfuel.
  { pose proof (in_hand_pos r step).
    pose proof (budget_sum_nonneg (table ta)). lia. }
  pose proof (in_hand_pos r step) as Hpos.
  assert (Hw : wrap32 (probepos r + 1) = probepos r + 1)
    by (unfold wrap32; apply Z.mod_small; lia).
  rewrite insert_loop_S. cbv zeta. rewrite Hw.
  set (r1 := set_probepos r (probepos r + 1)).
  set (ta1 := set_totalweight ta (wrap32 (totalweight ta + 1))).
  set (idx := slot_index ta1 (hash r1) (probepos r1) step).
  set (e := get_slot ta1 idx).
  assert (Eidx : idx = wrap64 (hash r + (probepos r + 1) * step) mod sz)
    by (unfold idx, slot_index; simpl; now rewrite Hsz).
  assert (Hidx0 : 0 <= idx < sz)
    by (rewrite Eidx; apply Z.mod_pos_bound; lia).
  assert (Hidx : (Z.to_nat idx < length (table ta))%nat)
    by (apply slot_in_array; [exact Hwf | now rewrite Hsz]).
  destruct (alive e) eqn:He; cbn [negb].
  2:{ destruct (key e); [destruct (negb _)|]; eauto. }
  assert (Hmiss : wrap64 (hash r + (probepos r + 1) * step) mod sz <> z).
  { rewrite <- Eidx. intros ->. unfold e in He.
    change (get_slot ta1 z) with (get_slot ta z) in He. congruence. }
  assert (He' : 0 <= probepos e /\ probepos e + budget sz sp z e < 2 ^ 32).
  { apply (Forall_get_slot
             (fun e => alive e = true ->
                       0 <= probepos e /\
                       probepos e + budget sz sp z e < 2 ^ 32) ta idx Hall);
      [discriminate | exact He]. }
  pose proof (budget_stored r step Hstep Hmiss) as Hst. fold r1 in Hst.
  destruct ((probepos e <? probepos r1)
            || (probepos e =? probepos r1) && (hash r1 <? hash e)).
  { apply IH.
    - split; [now apply well_formed_set|].
      split; [exact Hsz|]. split; [exact Hsp|].
      split; [unfold step_of; simpl; rewrite Hsp; apply derived_step_range|].
      split.
      { rewrite get_set_other by lia. exact Hz. }
      split; [apply He'|].
      split.
      { unfold in_hand, step_of. simpl step_prime. rewrite Hsp, Z.eqb_refl.
        unfold budget in He'. rewrite He in He'. lia. }
      simpl. apply Forall_upd; [exact Hall|].
      intros _. simpl. lia.
    - simpl table.
      rewrite (sum_over_upd _ _ _ _ zero_entry) by exact Hidx.
      change (nth (Z.to_nat idx) (table ta) zero_entry) with e.
      unfold in_hand, step_of. simpl step_prime. rewrite Hsp, Z.eqb_refl.
      unfold budget at 2. rewrite He. lia. }
  destruct ((probepos e =? probepos r1) && (hash r1 =? hash e) && _);
    [eauto|].
  pose proof (in_hand_next r step Hstep Hmiss) as Hnext. fold r1 in Hnext.
  apply IH.
  - split; [exact Hwf|]. split; [exact Hsz|]. split; [exact Hsp|].
    split; [exact Hstep|]. split; [exact Hz|].
    split; [simpl; lia|]. split; [simpl; lia|]. exact Hall.
  - simpl table. lia.
Qed.

End Probing.

(** Primality by trial division, for concrete capacities. *)
Lemma prime_by_trial p :
  1 < p ->
  forallb (fun n => negb (p mod n =? 0))
    (map Z.of_nat (seq 2 (Z.to_nat p - 2))) = true ->
  Z.prime p.
Proof.
  intros Hp Hall. split; [exact Hp|]. intros n Hn Hdiv.
  rewrite forallb_forall in Hall.
  specialize (Hall n). rewrite negb_true_iff, Z.eqb_neq in Hall.
  apply Hall.
  - apply in_map_iff. exists (Z.to_nat n). split; [lia|].
    apply in_seq. lia.
  - apply Z.mod0_divide. exact Hdiv.
Qed.

Lemma dead_slot_exists l :
  sum_over (fun e => if alive e then 1 else 0) l < Z.of_nat (length l) ->
  exists n, (n < length l)%nat /\ alive (nth n l zero_entry) = false.
Proof.
  induction l as [|e l IH]; simpl length; simpl sum_over; [lia|].
  destruct (alive e) eqn:He.
  - intros H. destruct IH as (n & Hn & Ha); [lia|].
    exists (S n). split; [lia | exact Ha].
  - intros _. exists 0%nat. split; [lia | exact He].
Qed.

(** C10. On a table of prime capacity below 2^31 that counts fewer live
    entries than slots, the probe and displacement loop returns for every
    candidate and every step strictly between 0 and the capacity, swaps
    included, provided no probe position is within 4 size + 2 of the end of
    [unsigned int]. *)
Theorem insert_loop_terminates ta r step :
  well_formed ta ->
  Z.prime (size ta) -> size ta < 2 ^ 31 ->
  0 < step_prime ta < size ta ->
  elements ta = live_count ta -> elements ta < size ta ->
  probes_bounded ta = true ->
  0 <= probepos r -> probepos r + 4 * size ta + 2 < 2 ^ 32 ->
  0 < step < size ta ->
  exists fuel ta' ex, insert_loop fuel ta r step = Some (ta', ex).
Proof.
  intros Hwf Hprime Hsmall Hsp Hel Hlt Hpb Hr0 Hr Hstep.
  destruct (dead_slot_exists (table ta)) as (n & Hn & Hdead).
  { fold (live_count ta). rewrite <- Hel. destruct Hwf as [H0 ->]. lia. }
  assert (Hz : 0 <= Z.of_nat n < size ta) by (destruct Hwf as [H0 Hl]; lia).
  exists (Z.to_nat (in_hand (size ta) (step_prime ta) (Z.of_nat n) r step
                    + sum_over (budget (size ta) (step_prime ta) (Z.of_nat n))
                        (table ta))).
  apply (insert_loop_total (size ta) (Z.of_nat n) Hprime Hsmall Hz
           (step_prime ta) Hsp); [|lia].
  split; [exact Hwf|]. split; [reflexivity|]. split; [reflexivity|].
  split; [exact Hstep|].
  split; [unfold get_slot; now rewrite Nat2Z.id|].
  split; [exact Hr0|].
  split.
  { unfold in_hand.
    pose proof (reach_bounds (size ta) (Z.of_nat n) Hz (hash r) step
                  (probepos r)).
    destruct (step =? _); lia. }
  unfold probes_bounded in Hpb. rewrite forallb_forall in Hpb.
  apply Forall_forall. intros e He Ha. specialize (Hpb e He).
  rewrite Ha in Hpb. cbn [negb orb] in Hpb.
  apply andb_true_iff in Hpb. destruct Hpb as [H1%Z.leb_le H2%Z.ltb_lt].
  pose proof (budget_bounds (size ta) (Z.of_nat n) Hz (step_prime ta) Hsp e).
  lia.
Qed.

Lemma insert_loop_terminates_witness :
  elements table_churned < size table_churned /\
  exists fuel ta' ex,
    insert_loop fuel table_churned (candidate table_churned key_ab 2 20)
      (step_of table_churned (hashf table_churned key_ab 2))
    = Some (ta', ex).
Proof.
  split; [vm_compute; reflexivity|].
  apply insert_loop_terminates.
  - split; vm_compute; reflexivity.
  - apply prime_by_trial; vm_compute; reflexivity.
  - vm_compute; reflexivity.
  - split; vm_compute; reflexivity.
  - vm_compute; reflexivity.
  - vm_compute; reflexivity.
  - vm_compute; reflexivity.
  - vm_compute; discriminate.
  - vm_compute; reflexivity.
  - split; vm_compute; reflexivity.
Defined.

(** ** The fuels that never run out *)



Lemma internal_search_fuel ta k len h step start :
  search_loop (search_fuel ta start) ta k len h step start 0 false false
  <> None.
Proof. apply search_loop_fuel. unfold search_fuel. lia. Qed.

(** ** Evaluations of the code *)

(** C1, at a failing input. A fresh table receives the single key "fbar";
    the insert succeeds and the entry lives in slot 0, where the search finds
    it, yet [table_get] answers not-found with a null payload. *)
Theorem round_trip_lost_at_slot_zero :
  after (table_insert (always true) 10 fresh_table key_fbar 4 7)
    (fun '(t1, ret) =>
       ret = 0 /\
       get_slot t1 0
         = mkEntry (table_hash key_fbar 4) (Some key_fbar) 7 4 1 true /\
       internal_search t1 key_fbar 4 = 0 /\
       table_get t1 key_fbar 4 = (-1, NULL)).
Proof. vm_compute. repeat split. Qed.

(** C3, at a failing input. After insert "aa", insert "ab", remove "aa",
    insert "ac", all successful, the key "ab" is live once. Inserting "ab"
    again swaps the candidate into the first probe slot: [elements] grows
    from 2 to 3 and two live entries hold "ab", the old payload among them,
    which a lookup returns once the new copy is removed. *)
Theorem upsert_duplicates_key :
  after (run_ops (always true) 10
           [Insert key_aa 1; Insert key_ab 2; Remove key_aa; Insert key_ac 3]
           fresh_table)
    (fun '(t4, rets) =>
       rets = [0; 0; 0; 0] /\ elements t4 = 2 /\
       map data (live_copies t4 key_ab) = [2] /\
       after (table_insert (always true) 10 t4 key_ab 2 20)
         (fun '(t5, ret) =>
            ret = 0 /\ elements t5 = 3 /\
            map data (live_copies t5 key_ab) = [20; 2] /\
            table_get (fst (table_remove t5 key_ab 2)) key_ab 2 = (0, 2))).
Proof. vm_compute. repeat split. Qed.

(** C4, at a failing input. 520 keys fill a fresh table past the load
    threshold, every live entry in its home slot. The next insert grows the
    table to 1367 slots and then places its key with the step it computed
    from the old [step_prime]: the entry sits in slot 836 while its home slot
    is 119, and a lookup of the key just inserted fails. *)
Theorem growing_insert_misplaces_key :
  after (run_ops (always true) 40 (first_inserts 520) fresh_table)
    (fun '(t520, rets) =>
       forallb (Z.eqb 0) rets = true /\ well_placed t520 = true /\
       after (table_insert (always true) 40 t520 (nth_key 520) 2 521)
         (fun '(t521, ret) =>
            ret = 0 /\ size t521 = 1367 /\ step_prime t521 = 1361 /\
            get_slot t521 836
              = mkEntry (table_hash (nth_key 520) 2) (Some (nth_key 520))
                  521 2 1 true /\
            slot_index t521 (hash (get_slot t521 836)) 1
              (step_of t520 (hash (get_slot t521 836))) = 836 /\
            home_slot t521 (get_slot t521 836) = 119 /\
            well_placed t521 = false /\
            table_get t521 (nth_key 520) 2 = (-1, NULL))).
Proof. vm_compute. repeat split. Qed.

(** C6, at failing inputs. The capacity chosen for the default capacity 547
    is 1367, which is below 547 x 2.5 = 1367.5, where the smallest prime from
    1368 on is 1373; and the primality test accepts 25 = 5 x 5, so that the
    capacity 10 grows to 25. *)
Theorem sizing_policy_defects :
  next_prime_size 1 547 scalar = Some 1367 /\ 2 * 1367 < 5 * 547 /\
  (forall m, 1368 <= m < 1373 -> ~ Z.prime m) /\ Z.prime 1373 /\
  is_prime 25 = 1 /\ ~ Z.prime 25 /\
  next_prime_size 1 10 scalar = Some 25.
Proof.
  split; [vm_compute; reflexivity|]. split; [lia|].
  split.
  { intros m Hm [_ Hp].
    assert (Hc : m = 1368 \/ m = 1369 \/ m = 1370 \/ m = 1371 \/ m = 1372)
      by lia.
    destruct Hc as [-> | [-> | [-> | [-> | ->]]]].
    - apply (Hp 2); [lia | now exists 684].
    - apply (Hp 37); [lia | now exists 37].
    - apply (Hp 2); [lia | now exists 685].
    - apply (Hp 3); [lia | now exists 457].
    - apply (Hp 2); [lia | now exists 686]. }
  split; [apply prime_by_trial; vm_compute; reflexivity|].
  split; [vm_compute; reflexivity|].
  split; [|vm_compute; reflexivity].
  intros [_ Hp]. apply (Hp 5); [lia | now exists 5].
Qed.

(** * Further properties of the code *)

(** ** The sizing policy *)

Lemma is_prime_loop_binary fuel : forall n i b,
  is_prime_loop fuel n i = Some b -> b = 0 \/ b = 1.
Proof.
  induction fuel as [|fuel IH]; intros n i b; cbn [is_prime_loop].
  - destruct (i * i <? n); [discriminate | intros [= <-]; now right].
  - destruct (i * i <? n); [|intros [= <-]; now right].
    destruct (_ || _); [intros [= <-]; now left | apply IH].
Qed.

Lemma is_prime_binary n : is_prime n = 0 \/ is_prime n = 1.
Proof.
  unfold is_prime.
  destruct (n <=? 1); [now left|]. destruct (n <=? 3); [now right|].
  destruct (_ || _); [now left|].
  destruct (is_prime_loop (Z.to_nat n) n 5) as [b|] eqn:H; [|now left].
  now apply is_prime_loop_binary in H.
Qed.







Lemma is_prime_nonzero n : is_prime n <> 0 -> is_prime n = 1.
Proof. destruct (is_prime_binary n); congruence. Qed.

Lemma wrap64_small x : 0 <= x < 2 ^ 64 -> wrap64 x = x.
Proof. intros H. unfold wrap64. now apply Z.mod_small. Qed.







(** What a returning downward walk has visited. *)
Lemma walk_down_range fuel : forall n m,
  0 <= n < 2 ^ 64 -> Z.of_nat fuel <= n + 1 ->
  walk_down fuel n = Some m -> 0 <= m <= n.
Proof.
  induction fuel as [|fuel IH]; intros n m Hn Hf; cbn [walk_down];
    [discriminate|].
  destruct (is_prime n =? 0); [|intros [= <-]; lia].
  destruct (Z.eq_dec n 0) as [->|Hn0].
  - assert (fuel = 0%nat) as -> by lia. discriminate.
  - rewrite wrap64_small by lia. intros H. apply IH in H; lia.
Qed.

Lemma next_prime_step_sizing n sp :
  next_prime_step n = Some sp ->
  is_prime sp = 1 /\ (0 < n < 2 ^ 64 -> 1 < sp < n).
Proof.
  unfold next_prime_step. intros H.
  pose proof (walk_down_prime _ _ _ H) as Hp.
  split; [now apply is_prime_nonzero|].
  intros Hn. rewrite wrap64_small in H by lia.
  apply walk_down_range in H; [|lia|lia].
  apply is_prime_gt_1 in Hp. lia.
Qed.

(** ** What every reachable table satisfies *)

Lemma insert_loop_sizing fuel ta r step ta' ex :
  sizing_ok ta -> insert_loop fuel ta r step = Some (ta', ex) -> sizing_ok ta'.
Proof.
  intros Hs H. apply insert_loop_frame in H. destruct H as (H1 & H2 & _).
  unfold sizing_ok. now rewrite H1, H2.
Qed.

Lemma place_sizing fuel ta r step ta' ret :
  sizing_ok ta -> place fuel ta r step = Some (ta', ret) -> sizing_ok ta'.
Proof.
  intros Hs H. apply place_frame in H. destruct H as (_ & H1 & H2 & _).
  unfold sizing_ok. now rewrite H1, H2.
Qed.

Lemma replay_sizing ins old :
  (forall ta k len d ta' ret,
     sizing_ok ta -> ins ta k len d = Some (ta', ret) -> sizing_ok ta') ->
  forall ta ta', sizing_ok ta -> replay ins old ta = Some ta' -> sizing_ok ta'.
Proof.
  intros Hins. induction old as [|e old IH]; intros ta ta' Hok; simpl.
  - now intros [= <-].
  - destruct (alive e); [|now apply IH].
    destruct (key e) as [k|]; [|discriminate].
    destruct (ins ta k (keylen e) (data e)) as [[ta1 ret]|] eqn:Hi;
      [|discriminate].
    apply IH. eapply Hins; eassumption.
Qed.

Lemma grow_table_with_sizing c ins fuel ta ta' ret :
  (forall ta k len d ta' ret,
     sizing_ok ta -> ins ta k len d = Some (ta', ret) -> sizing_ok ta') ->
  sizing_ok ta -> grow_table_with c ins fuel ta = Some (ta', ret) ->
  sizing_ok ta'.
Proof.
  intros Hins Hok. unfold grow_table_with.
  destruct (next_prime_size fuel (size ta) scalar) as [n|] eqn:Hn;
    [|discriminate].
  destruct (negb (c n)); [now intros [= <- <-]|].
  destruct (next_prime_step n) as [sp|] eqn:Hsp; [|discriminate].
  destruct (replay ins _ _) as [ta1|] eqn:Hrep; [|discriminate].
  intros [= <- <-]. eapply replay_sizing; [exact Hins| |exact Hrep].
  pose proof (walk_up_prime _ _ _ Hn) as Hp.
  apply next_prime_step_sizing in Hsp. destruct Hsp as [Hs1 Hs2].
  split; [now apply is_prime_nonzero|]. split; [exact Hs1|].
  simpl. intros Hlt. apply Hs2. apply is_prime_gt_1 in Hp. lia.
Qed.

Lemma table_insert_sizing c fuel : forall ta k len d ta' ret,
  sizing_ok ta -> table_insert c fuel ta k len d = Some (ta', ret) ->
  sizing_ok ta'.
Proof.
  induction fuel as [|fuel IH]; intros ta k len d ta' ret Hok;
    [discriminate|].
  rewrite table_insert_S.
  destruct (elements ta =? size ta); [now intros [= <- <-]|].
  destruct (if load_exceeds ta then _ else _) as [[ta1 r1]|] eqn:Hg;
    [|discriminate].
  assert (Hok1 : sizing_ok ta1).
  { destruct (load_exceeds ta).
    - eapply grow_table_with_sizing; [exact IH|exact Hok|exact Hg].
    - now injection Hg as <- _. }
  now apply place_sizing.
Qed.

Lemma reachable_sizing ta : reachable ta -> sizing_ok ta.
Proof.
  induction 1 as [m c h f ta H | c fuel ta k len d ta' ret _ IH H
                 | ta k len ta' ret _ IH H | c fuel ta ta' ret _ IH H].
  - unfold table_new in H. destruct (negb m); [discriminate|].
    destruct (negb (c TABLE_SIZE_DEFAULT)); [discriminate|].
    destruct (next_prime_step TABLE_SIZE_DEFAULT) as [sp|] eqn:Hsp;
      [|discriminate].
    injection H as <-. apply next_prime_step_sizing in Hsp.
    destruct Hsp as [H1 H2].
    split; [vm_compute; reflexivity|]. split; [exact H1|].
    intros _. apply H2. vm_compute. split; reflexivity.
  - eapply table_insert_sizing; eassumption.
  - unfold table_remove in H. cbv zeta in H.
    destruct (internal_search ta k len >? 0); injection H as <- _; exact IH.
  - eapply grow_table_with_sizing; [|exact IH|exact H].
    apply table_insert_sizing.
Qed.

(** X4. In every reachable state the capacity and the step modulus are
    numbers the primality test accepts, and the step modulus lies strictly
    between 1 and the capacity. *)
Theorem sizing_invariant ta :
  reachable ta ->
  is_prime (size ta) = 1 /\ is_prime (step_prime ta) = 1 /\
  (size ta < 2 ^ 64 -> 1 < step_prime ta < size ta).
Proof. apply reachable_sizing. Qed.

Lemma sizing_invariant_witness :
  size table_grown = 1367 /\ step_prime table_grown = 1361 /\
  is_prime (size table_grown) = 1 /\ is_prime (step_prime table_grown) = 1.
Proof.
  split; [vm_compute; reflexivity|]. split; [vm_compute; reflexivity|].
  destruct (sizing_invariant table_grown (table_after_reachable _))
    as (H1 & H2 & _).
  split; assumption.
Defined.

Lemma live_count_bounds l :
  0 <= sum_over (fun e => if alive e then 1 else 0) l <= Z.of_nat (length l).
Proof.
  induction l as [|e l IH]; simpl length; simpl sum_over; [lia|].
  destruct (alive e); lia.
Qed.

(** X5. In every reachable state [elements] counts the live entries, as an
    [unsigned int] does: it is their number whenever the capacity is below
    2^32, and their number never exceeds the capacity. *)
Theorem elements_count_live ta :
  reachable ta ->
  elements ta = wrap32 (live_count ta) /\
  0 <= live_count ta <= size ta /\
  (size ta < 2 ^ 32 -> elements ta = live_count ta).
Proof.
  intros H. apply reachable_counters in H.
  destruct H as ((Hsz & Hlen) & _ & _ & Hel).
  pose proof (live_count_bounds (table ta)) as Hb. fold (live_count ta) in Hb.
  rewrite Hlen in Hb.
  split; [exact Hel|]. split; [lia|].
  intros Hlt. rewrite Hel. unfold wrap32. apply Z.mod_small. lia.
Qed.

Lemma elements_count_live_witness :
  live_count table_grown = 520 /\ elements table_grown = live_count table_grown.
Proof.
  split; [vm_compute; reflexivity|].
  apply (elements_count_live table_grown (table_after_reachable _)).
  vm_compute. reflexivity.
Defined.

(** ** Results of the operations *)

(** X6. [table_insert] answers -1 only for a table whose [elements] equals
    [size], which it then leaves as it is; every other insert that returns
    answers 0. *)
Theorem table_insert_result c fuel ta k len d ta' ret :
  table_insert c fuel ta k len d = Some (ta', ret) ->
  (elements ta = size ta /\ ta' = ta /\ ret = -1) \/
  (elements ta <> size ta /\ ret = 0).
Proof.
  destruct fuel as [|fuel]; [discriminate|]. rewrite table_insert_S.
  destruct (elements ta =? size ta) eqn:E.
  - apply Z.eqb_eq in E. intros [= <- <-]. now left.
  - apply Z.eqb_neq in E.
    destruct (if load_exceeds ta then _ else _) as [[ta1 r1]|];
      [|discriminate].
    intros H. apply place_frame in H. right. tauto.
Qed.

Lemma table_insert_result_witness :
  table_insert (always true) 1 (set_elements fresh_table 547) key_aa 2 1
  = Some (set_elements fresh_table 547, -1) /\
  elements (set_elements fresh_table 547)
  = size (set_elements fresh_table 547).
Proof.
  assert (H : table_insert (always true) 1 (set_elements fresh_table 547)
                key_aa 2 1 = Some (set_elements fresh_table 547, -1))
    by reflexivity.
  split; [exact H|].
  destruct (table_insert_result _ _ _ _ _ _ _ _ H) as [(E & _) | (_ & E)];
    [exact E | discriminate].
Defined.

(** X7. A successful [table_remove] turns the slot the search returned into
    a tombstone, key, data and probe position kept, takes one off
    [elements] and the slot's probe position off [totalweight], and leaves
    every other slot and field alone; no later search returns that slot. An
    unsuccessful one changes nothing. *)
Theorem table_remove_effect ta k len ta' ret :
  table_remove ta k len = (ta', ret) ->
  (ret = -1 /\ ta' = ta /\ internal_search ta k len <= 0) \/
  (ret = 0 /\ 0 < internal_search ta k len /\
   alive (get_slot ta (internal_search ta k len)) = true /\
   get_slot ta' (internal_search ta k len)
   = set_alive (get_slot ta (internal_search ta k len)) false /\
   (forall j, 0 <= j -> j <> internal_search ta k len ->
              get_slot ta' j = get_slot ta j) /\
   elements ta' = wrap32 (elements ta - 1) /\
   totalweight ta'
   = wrap32 (totalweight ta
             - probepos (get_slot ta (internal_search ta k len))) /\
   size ta' = size ta /\ step_prime ta' = step_prime ta /\
   maxprobe ta' = maxprobe ta /\
   forall k' len', internal_search ta' k' len' <> internal_search ta k len).
Proof.
  unfold table_remove. cbv zeta.
  set (pos := internal_search ta k len).
  destruct (pos >? 0) eqn:Hpos.
  2:{ intros [= <- <-]. left.
      assert (~ 0 < pos) by (intros H; apply Z.gtb_lt in H; congruence).
      repeat split. lia. }
  apply Z.gtb_lt in Hpos.
  destruct (internal_search_sound ta k len) as [Hf _]; [fold pos; lia|].
  fold pos in Hf.
  assert (Hr : (Z.to_nat pos < length (table ta))%nat)
    by now apply get_slot_alive_range.
  set (f := get_slot ta pos) in *.
  set (ta1 := set_slot ta pos (set_alive f false)).
  assert (Hg : get_slot (set_elements ta1 (wrap32 (elements ta1 - 1))) pos
               = set_alive f false).
  { change (get_slot ta1 pos = set_alive f false). now apply get_set_same. }
  rewrite Hg. intros [= <- <-]. right.
  split; [reflexivity|]. split; [exact Hpos|]. split; [exact Hf|].
  split.
  { change (get_slot ta1 pos = set_alive f false). now apply get_set_same. }
  split.
  { intros j Hj Hne.
    change (get_slot ta1 j = get_slot ta j). apply get_set_other. lia. }
  split; [reflexivity|]. split; [reflexivity|].
  split; [reflexivity|]. split; [reflexivity|]. split; [reflexivity|].
  intros k' len' Heq.
  match type of Heq with
  | internal_search ?T _ _ = _ =>
      destruct (internal_search_sound T k' len') as [Ha _];
        [rewrite Heq; lia|]
  end.
  rewrite Heq in Ha.
  change (alive (get_slot ta1 pos) = true) in Ha.
  unfold ta1 in Ha. rewrite get_set_same in Ha by exact Hr. discriminate.
Qed.

Lemma table_remove_effect_witness :
  table_remove aa_table key_aa 2
  = (fst (table_remove aa_table key_aa 2), 0) /\
  alive (get_slot (fst (table_remove aa_table key_aa 2)) 65) = false /\
  elements (fst (table_remove aa_table key_aa 2)) = 0.
Proof.
  assert (H : table_remove aa_table key_aa 2
              = (fst (table_remove aa_table key_aa 2), 0)).
  { assert (E : snd (table_remove aa_table key_aa 2) = 0)
      by (vm_compute; reflexivity).
    rewrite <- E. apply surjective_pairing. }
  assert (P : internal_search aa_table key_aa 2 = 65)
    by (vm_compute; reflexivity).
  split; [exact H|].
  destruct (table_remove_effect aa_table key_aa 2 _ 0 H)
    as [(E & _) | (_ & _ & _ & Hs & _ & He & _)]; [discriminate|].
  rewrite P in Hs. split.
  - rewrite Hs. reflexivity.
  - rewrite He. reflexivity.
Defined.

(** ** The default comparison *)

Lemma strncmp_prefix n : forall s1 s2,
  strncmp s1 s2 n = 0 <-> c_prefix n s1 = c_prefix n s2.
Proof.
  induction n as [|n IH]; intros s1 s2.
  - simpl. destruct s1, s2; tauto.
  - cbn [strncmp].
    destruct s1 as [|a s1]; destruct s2 as [|b s2]; cbn [hd tl c_prefix].
    + simpl. tauto.
    + destruct (0 =? b) eqn:E.
      * apply Z.eqb_eq in E. subst b. simpl. tauto.
      * apply Z.eqb_neq in E.
        destruct (b =? 0) eqn:E'; [apply Z.eqb_eq in E'; lia|].
        split; [lia | discriminate].
    + destruct (a =? 0) eqn:E.
      * apply Z.eqb_eq in E. subst a. simpl. tauto.
      * apply Z.eqb_neq in E. split; [lia | discriminate].
    + destruct (a =? b) eqn:E.
      * apply Z.eqb_eq in E. subst b.
        destruct (a =? 0); [tauto|].
        rewrite IH. split; [intros ->; reflexivity | intros [= H]; exact H].
      * apply Z.eqb_neq in E.
        split; [lia|].
        destruct (a =? 0) eqn:Ea; destruct (b =? 0) eqn:Eb;
          try apply Z.eqb_eq in Ea; try apply Z.eqb_eq in Eb;
          try discriminate; try lia.
        intros [= H _]. contradiction.
Qed.

(** X8. The default comparison answers 0 exactly when the two keys agree
    on the characters it looks at, at most [len] of them and none after a
    NUL; so a key compares equal to itself and to every key that extends
    its first [len] characters. *)
Theorem table_cmp_prefix k1 k2 len :
  (table_cmp k1 k2 len = 0 <->
   c_prefix (Z.to_nat len) k1 = c_prefix (Z.to_nat len) k2) /\
  table_cmp k1 k1 len = 0 /\
  (table_cmp k1 k2 len = 0 -> table_cmp k2 k1 len = 0).
Proof.
  unfold table_cmp. split; [apply strncmp_prefix|].
  split; [now apply strncmp_prefix|].
  rewrite !strncmp_prefix. intros H. now symmetry.
Qed.

Lemma strncmp_refl s n : strncmp s s n = 0.
Proof. now apply strncmp_prefix. Qed.

(** ** Fetching *)

(** X9. [table_fetch_val] returns what [table_get] stores through its
    pointer. [table_fetch_key] is [NULL] when [table_get] misses; when it
    hits, it is the stored key of the live entry found, which the table's
    comparison reports equal to the key sought. *)
Theorem fetch_agrees_with_get ta k len :
  table_fetch_val ta k len = snd (table_get ta k len) /\
  (fst (table_get ta k len) = -1 -> table_fetch_key ta k len = None) /\
  (fst (table_get ta k len) = 0 ->
   table_fetch_key ta k len = key (get_slot ta (internal_search ta k len)) /\
   alive (get_slot ta (internal_search ta k len)) = true /\
   cmpf ta k (deref (table_fetch_key ta k len)) len = 0).
Proof.
  unfold table_fetch_val, table_fetch_key, table_get. cbv zeta.
  destruct (internal_search ta k len >? 0) eqn:H; simpl.
  - split; [reflexivity|]. split; [discriminate|]. intros _.
    apply Z.gtb_lt in H. split; [reflexivity|].
    apply internal_search_sound. lia.
  - split; [reflexivity|]. split; [reflexivity | discriminate].
Qed.

(** ** Iteration *)

Lemma in_firstn (e : entry) n : forall l, In e (firstn n l) -> In e l.
Proof.
  induction n as [|n IH]; intros [|x l]; simpl; try tauto.
  intros [H|H]; [now left | right; now apply IH].
Qed.

Section Iterating.

Variable A : Type.
Variable f : iter_func A.

Lemma iter_loop_result l : forall arg,
(snd (iter_loop A f l arg) = 0 \/ snd (iter_loop A f l arg) = 1) /\
(snd (iter_loop A f l arg) = 1 ->
 exists a e, In e l /\ alive e = true /\
             snd (f a (key e) (keylen e) (data e)) <> 0).
Proof.
induction l as [|e l IH]; intros arg; cbn [iter_loop].
- split; [now left | discriminate].
- destruct (alive e) eqn:He.
  + destruct (f arg (key e) (keylen e) (data e)) as [arg' v] eqn:Hf.
    destruct (v =? 0) eqn:Hv; cbn [negb].
    * destruct (IH arg') as [H1 H2]. split; [exact H1|].
      intros H. destruct (H2 H) as (a & e' & Hin & Ha & Hs).
      exists a, e'. split; [now right | now split].
    * split; [now right|]. intros _. exists arg, e.
      split; [now left|]. split; [exact He|].
      rewrite Hf. simpl. now apply Z.eqb_neq in Hv.
  + destruct (IH arg) as [H1 H2]. split; [exact H1|].
    intros H. destruct (H2 H) as (a & e' & Hin & Ha & Hs).
    exists a, e'. split; [now right | now split].
Qed.

Lemma iter_loop_all l :
(forall a k len d, snd (f a k len d) = 0) ->
forall arg,
  iter_loop A f l arg
  = (fold_left (fun a e => fst (f a (key e) (keylen e) (data e)))
       (filter alive l) arg, 0).
Proof.
intros Hf. induction l as [|e l IH]; intros arg; cbn [iter_loop filter];
  [reflexivity|].
destruct (alive e); [|apply IH].
cbn [fold_left].
specialize (Hf arg (key e) (keylen e) (data e)).
destruct (f arg (key e) (keylen e) (data e)) as [arg' v]. simpl in Hf.
subst v. simpl. apply IH.
Qed.

(** X10. [table_iter] answers 0 or 1, whatever the callback returned, and 1
  only after the callback returned a nonzero value on a live entry. With
  a callback that always returns 0 it passes the state through every live
  entry once, in slot order. *)
Theorem table_iter_visits ta arg :
(snd (table_iter A ta f arg) = 0 \/ snd (table_iter A ta f arg) = 1) /\
(snd (table_iter A ta f arg) = 1 ->
 exists a e, In e (table ta) /\ alive e = true /\
             snd (f a (key e) (keylen e) (data e)) <> 0) /\
((forall a k len d, snd (f a k len d) = 0) ->
 table_iter A ta f arg
 = (fold_left (fun a e => fst (f a (key e) (keylen e) (data e)))
      (filter alive (firstn (Z.to_nat (size ta)) (table ta))) arg, 0)).
Proof.
unfold table_iter.
destruct (iter_loop_result (firstn (Z.to_nat (size ta)) (table ta)) arg)
  as [H1 H2].
split; [exact H1|]. split.
- intros H. destruct (H2 H) as (a & e & Hin & Ha & Hs).
  exists a, e. split; [|now split]. eapply in_firstn; exact Hin.
- intros Hf. now apply iter_loop_all.
Qed.

End Iterating.

Lemma count_fold l : forall n,
  fold_left (fun a (e : entry) => a + 1) (filter alive l) n
  = n + sum_over (fun e => if alive e then 1 else 0) l.
Proof.
  induction l as [|e l IH]; intros n; cbn [filter sum_over fold_left]; [lia|].
  destruct (alive e); cbn [fold_left]; rewrite IH; lia.
Qed.

(** X11. On a reachable table of capacity below 2^32, iterating with a
    callback that counts its calls and never stops counts [elements]. *)
Theorem table_iter_counts ta :
  reachable ta -> size ta < 2 ^ 32 ->
  table_iter Z ta (fun n _ _ _ => (n + 1, 0)) 0 = (elements ta, 0).
Proof.
  intros Hr Hlt.
  pose proof (reachable_counters ta Hr) as ((Hsz & Hlen) & _ & _ & Hel).
  pose proof (live_count_bounds (table ta)) as Hb. fold (live_count ta) in Hb.
  unfold table_iter. rewrite iter_loop_all by reflexivity.
  rewrite <- Hlen, firstn_all. cbn [fst].
  rewrite count_fold. fold (live_count ta). f_equal.
  rewrite Hel. unfold wrap32. rewrite Z.mod_small; lia.
Qed.

Lemma table_iter_counts_witness :
  table_iter Z table_churned (fun n _ _ _ => (n + 1, 0)) 0 = (2, 0).
Proof.
  assert (E : elements table_churned = 2) by (vm_compute; reflexivity).
  rewrite <- E. apply table_iter_counts.
  - apply table_after_reachable.
  - vm_compute. reflexivity.
Defined.

(** ** The search returns *)

(** X12. The two walks of the search are exhausted after
    max(start, maxprobe + 1 - start) + 1 rounds: on every table and for
    every key the loop returns a slot or -1 within that many rounds. *)
Theorem search_returns ta k len h step start :
  exists pos,
    search_loop (search_fuel ta start) ta k len h step start 0 false false
    = Some pos /\
    (pos = -1 \/
     alive (get_slot ta pos) = true /\
     key_matches ta k (get_slot ta pos) len = true).
Proof.
  destruct (search_loop (search_fuel ta start) ta k len h step start 0
              false false) as [pos|] eqn:H.
  - exists pos. split; [reflexivity|]. now apply search_loop_sound in H.
  - exfalso. revert H. apply search_loop_fuel. unfold search_fuel. lia.
Qed.

(** ** Stored hashes *)

Lemma Forall_repeat_zero (P : entry -> Prop) n :
  P zero_entry -> Forall P (repeat zero_entry n).
Proof.
  intros H. apply Forall_forall. intros e He. apply repeat_spec in He.
  now subst e.
Qed.

Lemma hashed_set_alive h e : hashed_by h e -> hashed_by h (set_alive e false).
Proof. unfold hashed_by. simpl. destruct (key e); auto. Qed.

Lemma hashed_set_data h e d : hashed_by h e -> hashed_by h (set_data e d).
Proof. unfold hashed_by. simpl. destruct (key e); auto. Qed.

Lemma insert_loop_hashed h fuel : forall ta r step ta' ex,
  Forall (hashed_by h) (table ta) -> hashed_by h r ->
  insert_loop fuel ta r step = Some (ta', ex) ->
  Forall (hashed_by h) (table ta').
Proof.
  induction fuel as [|fuel IH]; intros ta r step ta' ex Hall Hr;
    [discriminate|].
  rewrite insert_loop_S. cbv zeta.
  set (r1 := set_probepos r (wrap32 (probepos r + 1))).
  set (ta1 := set_totalweight ta (wrap32 (totalweight ta + 1))).
  set (idx := slot_index ta1 (hash r1) (probepos r1) step).
  assert (Hr1 : hashed_by h r1) by exact Hr.
  assert (He : hashed_by h (get_slot ta1 idx)).
  { apply (Forall_get_slot (hashed_by h) ta idx Hall). reflexivity. }
  destruct (negb (alive (get_slot ta1 idx))).
  - destruct (key (get_slot ta1 idx)).
    + destruct (negb (_ =? -1)); intros [= <- <-]; simpl.
      * apply Forall_upd; [now apply Forall_upd|].
        apply hashed_set_alive.
        apply (Forall_get_slot (hashed_by h) (set_slot ta1 idx r1)
                 (internal_search ta1 (deref (key r1)) (keylen r1))).
        -- simpl. now apply Forall_upd.
        -- reflexivity.
      * now apply Forall_upd.
    + intros [= <- <-]. simpl. now apply Forall_upd.
  - destruct (_ || _).
    + intros H. eapply IH; [| |exact H]; [|exact He].
      simpl. now apply Forall_upd.
    + destruct (_ && _).
      * intros [= <- <-]. simpl. apply Forall_upd; [exact Hall|].
        apply hashed_set_data. exact He.
      * intros H. eapply IH; [| |exact H]; assumption.
Qed.

Lemma place_hashed fuel ta r step ta' ret :
  entries_hashed ta -> hashed_by (hashf ta) r ->
  place fuel ta r step = Some (ta', ret) ->
  entries_hashed ta' /\ hashf ta' = hashf ta.
Proof.
  intros Hall Hr. unfold place.
  destruct (insert_loop fuel ta r step) as [[ta1 ex]|] eqn:Hl; [|discriminate].
  pose proof (insert_loop_frame _ _ _ _ _ _ Hl) as (_ & _ & _ & Hh & _).
  pose proof (insert_loop_hashed _ _ _ _ _ _ _ Hall Hr Hl) as H1.
  unfold entries_hashed.
  destruct ex; intros [= <- <-]; simpl; rewrite Hh; split;
    [exact H1 | reflexivity | exact H1 | reflexivity].
Qed.

Lemma replay_hashed ins old : keeps_hashes ins ->
  forall ta ta',
    entries_hashed ta -> replay ins old ta = Some ta' ->
    entries_hashed ta' /\ hashf ta' = hashf ta.
Proof.
  intros Hins. induction old as [|e old IH]; intros ta ta' Hok; simpl.
  - intros [= <-]. now split.
  - destruct (alive e); [|now apply IH].
    destruct (key e) as [k|]; [|discriminate].
    destruct (ins ta k (keylen e) (data e)) as [[ta1 ret]|] eqn:Hi;
      [|discriminate].
    destruct (Hins _ _ _ _ _ _ Hok Hi) as [H1 H2].
    intros H. apply IH in H; [|exact H1]. rewrite <- H2. exact H.
Qed.

Lemma grow_table_with_hashed c ins fuel ta ta' ret : keeps_hashes ins ->
  entries_hashed ta -> grow_table_with c ins fuel ta = Some (ta', ret) ->
  entries_hashed ta' /\ hashf ta' = hashf ta.
Proof.
  intros Hins Hok. unfold grow_table_with.
  destruct (next_prime_size fuel (size ta) scalar) as [n|]; [|discriminate].
  destruct (negb (c n)); [intros [= <- <-]; now split|].
  destruct (next_prime_step n) as [sp|]; [|discriminate].
  destruct (replay ins _ _) as [ta1|] eqn:Hrep; [|discriminate].
  intros [= <- <-]. apply (replay_hashed _ _ Hins) in Hrep; [exact Hrep|].
  unfold entries_hashed. cbn [table hashf].
  apply Forall_repeat_zero. reflexivity.
Qed.

Lemma table_insert_hashed c fuel : keeps_hashes (table_insert c fuel).
Proof.
  induction fuel as [|fuel IH]; intros ta k len d ta' ret Hok;
    [discriminate|].
  rewrite table_insert_S.
  destruct (elements ta =? size ta); [intros [= <- <-]; now split|].
  destruct (if load_exceeds ta then _ else _) as [[ta1 r1]|] eqn:Hg;
    [|discriminate].
  assert (Hok1 : entries_hashed ta1 /\ hashf ta1 = hashf ta).
  { destruct (load_exceeds ta).
    - eapply grow_table_with_hashed; [exact IH|exact Hok|exact Hg].
    - injection Hg as <- _. now split. }
  destruct Hok1 as [H1 H2]. intros H.
  apply place_hashed in H; [|exact H1|rewrite H2; reflexivity].
  rewrite <- H2. exact H.
Qed.

Lemma reachable_hashed ta : reachable ta -> entries_hashed ta.
Proof.
  induction 1 as [m c h f ta H | c fuel ta k len d ta' ret _ IH H
                 | ta k len ta' ret _ IH H | c fuel ta ta' ret _ IH H].
  - unfold table_new in H. destruct (negb m); [discriminate|].
    destruct (negb (c TABLE_SIZE_DEFAULT)); [discriminate|].
    destruct (next_prime_step TABLE_SIZE_DEFAULT); [|discriminate].
    injection H as <-. unfold entries_hashed. cbn [table hashf].
    exact (Forall_repeat_zero _ (Z.to_nat TABLE_SIZE_DEFAULT) eq_refl).
  - now apply (table_insert_hashed _ _ _ _ _ _ _ _ IH H).
  - unfold table_remove in H. cbv zeta in H.
    destruct (internal_search ta k len >? 0); injection H as <- _;
      [|exact IH].
    unfold entries_hashed. simpl. apply Forall_upd; [exact IH|].
    apply hashed_set_alive.
    apply (Forall_get_slot (hashed_by (hashf ta)) ta _ IH). reflexivity.
  - apply (grow_table_with_hashed _ _ _ _ _ _ (table_insert_hashed c fuel) IH H).
Qed.

(** X13. In every reachable state, removals and growths included, a slot
    that was ever written stores the hash the table's hash function gives
    its stored key and key length; in particular every live entry has a
    key. *)
Theorem stored_hashes ta e :
  reachable ta -> In e (table ta) ->
  (forall k, key e = Some k -> hash e = hashf ta k (keylen e)) /\
  (alive e = true ->
   exists k, key e = Some k /\ hash e = hashf ta k (keylen e)).
Proof.
  intros Hr Hin. apply reachable_hashed in Hr.
  unfold entries_hashed in Hr. rewrite Forall_forall in Hr.
  specialize (Hr e Hin). unfold hashed_by in Hr.
  destruct (key e) as [k|].
  - split; [now intros k' [= <-]|]. intros _. now exists k.
  - split; [discriminate | congruence].
Qed.

Lemma stored_hashes_witness :
  alive (get_slot table_grown 836) = true /\
  exists k, key (get_slot table_grown 836) = Some k /\
            hash (get_slot table_grown 836)
            = hashf table_grown k (keylen (get_slot table_grown 836)).
Proof.
  assert (Ha : alive (get_slot table_grown 836) = true)
    by (vm_compute; reflexivity).
  split; [exact Ha|].
  apply (stored_hashes table_grown (get_slot table_grown 836)
           (table_after_reachable _)); [|exact Ha].
  apply nth_In. now apply get_slot_alive_range.
Defined.

(** ** The first key of a table *)

Lemma upd_upd n e e' l : upd n e' (upd n e l) = upd n e' l.
Proof.
  revert n; induction l as [|x l IH]; intros [|n]; simpl; auto.
  now rewrite IH.
Qed.

Lemma first_slot_range h k len : 0 <= first_slot h k len < 547.
Proof. unfold first_slot. apply Z.mod_pos_bound. reflexivity. Qed.

Lemma first_slot_in_array h k len :
  (Z.to_nat (first_slot h k len) < length (repeat zero_entry 547))%nat.
Proof. rewrite repeat_length. pose proof (first_slot_range h k len). lia. Qed.

Section FirstKey.

Variables (h : hash_func) (c : cmp_func) (k : bytes) (len : Z).

Lemma blank_slot i : get_slot (blank_table h c) i = zero_entry.
Proof. unfold get_slot, blank_table. cbn [table]. apply nth_repeat. Qed.

Lemma single_slot d :
get_slot (single_table h c k len d) (first_slot h k len)
= mkEntry (h k len) (Some k) d len 1 true.
Proof.
unfold get_slot, single_table. cbn [table].
apply nth_upd_eq. apply first_slot_in_array.
Qed.

Lemma tombstone_slot d :
get_slot (tombstone_table h c k len d) (first_slot h k len)
= mkEntry (h k len) (Some k) d len 1 false.
Proof.
unfold get_slot, tombstone_table. cbn [table].
apply nth_upd_eq. apply first_slot_in_array.
Qed.

Lemma insert_blank alloc fuel d :
table_insert alloc (S (S fuel)) (blank_table h c) k len d
= Some (single_table h c k len d, 0).
Proof.
rewrite table_insert_S.
change (elements (blank_table h c) =? size (blank_table h c)) with false.
change (load_exceeds (blank_table h c)) with false.
cbv iota. unfold place. rewrite insert_loop_S. cbv zeta.
change (set_totalweight (blank_table h c)
          (wrap32 (totalweight (blank_table h c) + 1)))
  with (set_totalweight (blank_table h c) 1).
change (get_slot (set_totalweight (blank_table h c) 1) ?i)
  with (get_slot (blank_table h c) i).
rewrite blank_slot. reflexivity.
Qed.

Lemma search_single d :
c k k len = 0 ->
internal_search (single_table h c k len d) k len = first_slot h k len.
Proof.
intros Hc. unfold internal_search.
change (elements (single_table h c k len d) =? 0) with false. cbv iota zeta.
change (totalweight (single_table h c k len d)
        / elements (single_table h c k len d)) with 1.
change (search_fuel (single_table h c k len d) 1) with 2%nat.
cbn [search_loop]. cbv zeta.
change (negb false && (1 + 0 <=? maxprobe (single_table h c k len d)))
  with true. cbv iota.
change (slot_index (single_table h c k len d)
          (hashf (single_table h c k len d) k len) (1 + 0)
          (step_of (single_table h c k len d)
             (hashf (single_table h c k len d) k len)))
  with (first_slot h k len).
rewrite single_slot. cbn [key alive].
unfold key_matches. cbn [key deref cmpf single_table].
rewrite Hc. reflexivity.
Qed.

Lemma insert_single alloc fuel d d' :
table_insert alloc (S (S fuel)) (single_table h c k len d) k len d'
= Some (single_table h c k len d', 0).
Proof.
rewrite table_insert_S.
change (elements (single_table h c k len d)
        =? size (single_table h c k len d)) with false.
change (load_exceeds (single_table h c k len d)) with false.
cbv iota. unfold place. rewrite insert_loop_S. cbv zeta.
change (slot_index _ _ _ _) with (first_slot h k len).
change (get_slot (set_totalweight (single_table h c k len d) _)
          (first_slot h k len))
  with (get_slot (single_table h c k len d) (first_slot h k len)).
rewrite single_slot.
cbn [alive key hash probepos keylen data candidate set_probepos
     negb deref].
change (wrap32 (0 + 1)) with 1.
rewrite !Z.ltb_irrefl, !Z.eqb_refl, strncmp_refl.
cbn [orb andb Z.eqb]. unfold single_table, set_slot, set_totalweight.
cbn [table size step_prime totalweight maxprobe elements hashf cmpf].
rewrite upd_upd. reflexivity.
Qed.

Lemma remove_single d :
c k k len = 0 -> 0 < first_slot h k len ->
table_remove (single_table h c k len d) k len
= (tombstone_table h c k len d, 0).
Proof.
intros Hc Hidx. unfold table_remove. cbv zeta.
rewrite (search_single d Hc).
apply Z.gtb_lt in Hidx. rewrite Hidx.
rewrite single_slot.
unfold single_table, tombstone_table, set_slot, set_elements,
  set_totalweight, get_slot.
cbn [table size step_prime totalweight maxprobe elements hashf cmpf].
rewrite upd_upd.
rewrite nth_upd_eq by apply first_slot_in_array.
reflexivity.
Qed.

Lemma search_tombstone d k' len' :
internal_search (tombstone_table h c k len d) k' len' = -1.
Proof. reflexivity. Qed.

Lemma insert_tombstone alloc fuel d d' :
table_insert alloc (S (S fuel)) (tombstone_table h c k len d) k len d'
= Some (single_table h c k len d', 0).
Proof.
rewrite table_insert_S.
change (elements (tombstone_table h c k len d)
        =? size (tombstone_table h c k len d)) with false.
change (load_exceeds (tombstone_table h c k len d)) with false.
cbv iota. unfold place. rewrite insert_loop_S. cbv zeta.
change (slot_index _ _ _ _) with (first_slot h k len).
change (get_slot (set_totalweight (tombstone_table h c k len d) _)
          (first_slot h k len))
  with (get_slot (tombstone_table h c k len d) (first_slot h k len)).
rewrite tombstone_slot.
cbn [alive key negb].
change (internal_search _ _ _) with (-1).
cbn [Z.eqb negb].
unfold single_table, tombstone_table, set_slot, set_totalweight,
  set_elements, set_maxprobe.
cbn [table size step_prime totalweight maxprobe elements hashf cmpf].
rewrite upd_upd. reflexivity.
Qed.

End FirstKey.

(** X14. The first insert into a new table, for any hash function and any
    comparison that reports the key equal to itself: the key is stored at
    its first probe, and [table_get] returns its data exactly when that
    probe is not slot 0. *)
Theorem first_insert_round_trip alloc fuel h c k len d :
  alloc TABLE_SIZE_DEFAULT = true -> c k k len = 0 ->
  table_new true alloc (Some h) (Some c) = Some (blank_table h c) /\
  table_insert alloc (S (S fuel)) (blank_table h c) k len d
  = Some (single_table h c k len d, 0) /\
  get_slot (single_table h c k len d) (first_slot h k len)
  = mkEntry (h k len) (Some k) d len 1 true /\
  (0 < first_slot h k len ->
   table_get (single_table h c k len d) k len = (0, d)) /\
  (first_slot h k len = 0 ->
   table_get (single_table h c k len d) k len = (-1, NULL)).
Proof.
  intros Ha Hc.
  split; [unfold table_new; rewrite Ha; reflexivity|].
  split; [apply insert_blank|]. split; [apply single_slot|].
  unfold table_get. cbv zeta. rewrite (search_single h c k len d Hc).
  split.
  - intros H. apply Z.gtb_lt in H. rewrite H. now rewrite single_slot.
  - intros ->. reflexivity.
Qed.

Lemma first_insert_round_trip_witness :
  first_slot table_hash key_aa 2 = 65 /\
  table_insert (always true) 2 (blank_table table_hash table_cmp) key_aa 2 1
  = Some (single_table table_hash table_cmp key_aa 2 1, 0) /\
  table_get (single_table table_hash table_cmp key_aa 2 1) key_aa 2 = (0, 1).
Proof.
  assert (E : first_slot table_hash key_aa 2 = 65) by (vm_compute; reflexivity).
  split; [exact E|].
  destruct (first_insert_round_trip (always true) 0 table_hash table_cmp
              key_aa 2 1) as (_ & H1 & _ & H2 & _).
  - reflexivity.
  - vm_compute; reflexivity.
  - split; [exact H1|]. apply H2. rewrite E. reflexivity.
Defined.

(** X15. A second insert of the only key of a table overwrites its data in
    place: the table is the one a first insert of the new data leaves, with
    one element, on any hash function and comparison. *)
Theorem second_insert_overwrites alloc fuel h c k len d d' :
  table_insert alloc (S (S fuel)) (single_table h c k len d) k len d'
  = Some (single_table h c k len d', 0) /\
  elements (single_table h c k len d') = 1 /\
  data (get_slot (single_table h c k len d') (first_slot h k len)) = d'.
Proof.
  split; [apply insert_single|]. split; [reflexivity|].
  now rewrite single_slot.
Qed.

(** X16. Removing the only key of a table, stored beyond slot 0, leaves a
    tombstone and an empty count: every lookup then misses, and a new
    insert of the key reuses the tombstone and gives the table a first
    insert leaves. *)
Theorem remove_then_reinsert alloc fuel h c k len d d' :
  c k k len = 0 -> 0 < first_slot h k len ->
  table_remove (single_table h c k len d) k len
  = (tombstone_table h c k len d, 0) /\
  (forall k' len',
     table_get (tombstone_table h c k len d) k' len' = (-1, NULL)) /\
  table_insert alloc (S (S fuel)) (tombstone_table h c k len d) k len d'
  = Some (single_table h c k len d', 0).
Proof.
  intros Hc Hpos.
  split; [now apply remove_single|]. split; [reflexivity|].
  apply insert_tombstone.
Qed.

Lemma remove_then_reinsert_witness :
  table_remove (single_table table_hash table_cmp key_aa 2 1) key_aa 2
  = (tombstone_table table_hash table_cmp key_aa 2 1, 0) /\
  table_insert (always true) 2 (tombstone_table table_hash table_cmp key_aa 2 1)
    key_aa 2 5
  = Some (single_table table_hash table_cmp key_aa 2 5, 0).
Proof.
  destruct (remove_then_reinsert (always true) 0 table_hash table_cmp
              key_aa 2 1 5) as (H1 & _ & H2).
  - vm_compute; reflexivity.
  - vm_compute; reflexivity.
  - split; assumption.
Defined.

(** ** The default hash *)

Lemma djb2_round h c :
  wrap64 (wrap64 (wrap64 (h * 2 ^ 5) + h) + c) = wrap64 (h * 33 + c).
Proof.
  unfold wrap64. rewrite Z.add_mod_idemp_l by discriminate.
  rewrite <- Z.add_assoc, Z.add_mod_idemp_l by discriminate.
  f_equal. lia.
Qed.

Lemma table_hash_loop_fold n : forall k h,
  (n <= length k)%nat ->
  table_hash_loop k n h
  = fold_left (fun a c => wrap64 (a * 33 + c)) (firstn n k) h.
Proof.
  induction n as [|n IH]; intros k h Hn; [reflexivity|].
  destruct k as [|c k]; [simpl in Hn; lia|].
  cbn [table_hash_loop hd tl firstn fold_left]. rewrite djb2_round.
  apply IH. simpl in Hn. lia.
Qed.

Lemma fold_wrap64_range l : forall h,
  0 <= h < 2 ^ 64 ->
  0 <= fold_left (fun a c => wrap64 (a * 33 + c)) l h < 2 ^ 64.
Proof.
  induction l as [|c l IH]; intros h Hh; cbn [fold_left]; [exact Hh|].
  apply IH. unfold wrap64. apply Z.mod_pos_bound. reflexivity.
Qed.

(** X17. On a buffer of at least [len] characters the default hash is the
    djb2 recurrence hash = hash x 33 + c, from 5381, over the first [len]
    characters, in 64-bit arithmetic: it reads nothing beyond them and its
    value fits an [unsigned long]. *)
Theorem table_hash_djb2 k len :
  (Z.to_nat len <= length k)%nat ->
  table_hash k len
  = fold_left (fun a c => wrap64 (a * 33 + c)) (firstn (Z.to_nat len) k) 5381
  /\ 0 <= table_hash k len < 2 ^ 64
  /\ forall k', firstn (Z.to_nat len) k' = firstn (Z.to_nat len) k ->
                (Z.to_nat len <= length k')%nat ->
                table_hash k' len = table_hash k len.
Proof.
  intros Hlen. unfold table_hash.
  rewrite table_hash_loop_fold by exact Hlen.
  split; [reflexivity|]. split.
  - apply fold_wrap64_range. split; [lia | reflexivity].
  - intros k' Hk' Hlen'. rewrite table_hash_loop_fold by exact Hlen'.
    now rewrite Hk'.
Qed.

Lemma table_hash_djb2_witness :
  table_hash key_fbar 4 = 6385216512 /\
  table_hash key_fbar 4
  = fold_left (fun a c => wrap64 (a * 33 + c)) (firstn (Z.to_nat 4) key_fbar)
      5381.
Proof.
  split; [vm_compute; reflexivity|].
  refine (proj1 (table_hash_djb2 key_fbar 4 _)). vm_compute. lia.
Defined.
